(** * bloom_engine: standard and sandwiched learned Bloom filters

    A shallow embedding of [src/main.cpp].  The two classes
    [StandardBloomFilter] and [SandwichedLearnedBloomFilter] become two
    modules; a method that mutates its object takes the object's state
    and returns the new one, a [const] method only returns its value.

    C++ behaviour that the source leaves to the language is made
    explicit: [int] is a 32-bit two's complement integer, [size_t] a
    64-bit unsigned one (LP64), conversions between them wrap, and what
    the language leaves undefined (a remainder by zero, an index outside
    the vector, an [int] sum that does not fit) or what the library
    answers by throwing ([std::length_error] from [resize]) is a [Fault]
    of the error monad [res]. *)

From Stdlib Require Import ZArith String Ascii List Bool Lia DecimalString.
From Stdlib Require Import DecimalFacts DecimalPos DecimalZ.
From stdpp Require Import base list.
Import ListNotations.

Local Open Scope Z_scope.

(** ** Machine integers *)

Definition INT_MIN : Z := - 2 ^ 31.
Definition INT_MAX : Z := 2 ^ 31 - 1.
Definition SIZE_MODULUS : Z := 2 ^ 64.

(** The values an [int] can hold. *)
Definition is_int (z : Z) : Prop := INT_MIN <= z <= INT_MAX.

(** Conversion to [size_t]: reduction modulo 2^64. *)
Definition to_size_t (z : Z) : Z := z mod SIZE_MODULUS.

(** Conversion to [int]: the value modulo 2^32, read as signed. *)
Definition to_int (z : Z) : Z := (z + 2 ^ 31) mod 2 ^ 32 - 2 ^ 31.

(** [std::to_string(int)]: decimal digits, with a leading minus sign
    for a negative number. *)
Definition to_string (z : Z) : string := NilZero.string_of_int (Z.to_int z).

(** ** Outcomes *)

Inductive fault : Type :=
| DivisionByZero     (* [x % 0] *)
| OutOfRange         (* [v[i]] with [i >= v.size()] *)
| SignedOverflow     (* an [int] result that is not representable *)
| LengthError.       (* [std::length_error] thrown by [resize] *)

Inductive res (A : Type) : Type :=
| Ok (a : A)
| Fault (e : fault).
Arguments Ok {A} a.
Arguments Fault {A} e.

Definition bind {A B : Type} (c : res A) (k : A -> res B) : res B :=
  match c with
  | Ok a => k a
  | Fault e => Fault e
  end.

Notation "'let*' x ':=' c 'in' k" := (bind c (fun x => k))
  (at level 10, x name, c at level 100, k at level 200).

(** [a + b] on [int]. *)
Definition int_add (a b : Z) : res Z :=
  if (INT_MIN <=? a + b) && (a + b <=? INT_MAX) then Ok (a + b)
  else Fault SignedOverflow.

(** ** [std::vector<bool>] *)

(** [max_size()] of a [vector<bool>] (libstdc++, LP64). *)
Definition vector_max_size : Z := 2 ^ 63 - 64.

(** [v.resize(n, x)]; [n] arrives converted to [size_type]. *)
Definition resize (v : list bool) (n : Z) (x : bool) : res (list bool) :=
  let n' := to_size_t n in
  let len := Z.of_nat (length v) in
  if n' <? len then Ok (take (Z.to_nat n') v)
  else if vector_max_size - len <? n' - len then Fault LengthError
  else Ok (v ++ replicate (Z.to_nat (n' - len)) x).

(** The slot [v[i]] designates; [i] arrives converted to [size_type]. *)
Definition slot (v : list bool) (i : Z) : res nat :=
  let i' := to_size_t i in
  if i' <? Z.of_nat (length v) then Ok (Z.to_nat i') else Fault OutOfRange.

(** [v[i]] read. *)
Definition vget (v : list bool) (i : Z) : res bool :=
  let* n := slot v i in
  match v !! n with
  | Some b => Ok b
  | None => Fault OutOfRange
  end.

(** [v[i] = x]. *)
Definition vset (v : list bool) (i : Z) (x : bool) : res (list bool) :=
  let* n := slot v i in Ok (<[n := x]> v).

(** Number of bits that are set. *)
Fixpoint popcount (v : list bool) : nat :=
  match v with
  | [] => O
  | b :: v' => ((if b then 1 else 0) + popcount v')%nat
  end.

(** ** The standard Bloom filter *)

Module StandardBloomFilter.

Record t : Type := mk {
  bit_array : list bool;
  size : Z;
  num_hashes : Z
}.

Section WithHasher.

(** [std::hash<std::string>]: left to the implementation by the
    language; its result is a [size_t]. *)
Variable hasher : string -> Z.

(** [hash(item, seed)]: [hasher(item + to_string(seed)) % size], the
    remainder taken on [size_t] and the result converted to [int]. *)
Definition hash (f : t) (item : string) (seed : Z) : res Z :=
  let d := to_size_t (size f) in
  if d =? 0 then Fault DivisionByZero
  else Ok (to_int (to_size_t (hasher (item ++ to_string seed)) mod d)).

(** The constructor: [size(s), num_hashes(k)], then
    [bit_array.resize(size, false)]. *)
Definition new (s k : Z) : res t :=
  let* bits := resize [] s false in
  Ok {| bit_array := bits; size := s; num_hashes := k |}.

(** The loop of [insert]: [n] iterations are left, the counter is [i]. *)
Fixpoint insert_loop (n : nat) (i : Z) (f : t) (item : string) : res t :=
  match n with
  | O => Ok f
  | S n' =>
      let* idx := hash f item i in
      let* bits := vset (bit_array f) idx true in
      insert_loop n' (i + 1)
        {| bit_array := bits; size := size f; num_hashes := num_hashes f |}
        item
  end.

(** [insert(item)]: [for (int i = 0; i < num_hashes; i++)]. *)
Definition insert (f : t) (item : string) : res t :=
  insert_loop (Z.to_nat (num_hashes f)) 0 f item.

(** The loop of [possibly_contains], with its early [return false]. *)
Fixpoint contains_loop (n : nat) (i : Z) (f : t) (item : string) : res bool :=
  match n with
  | O => Ok true
  | S n' =>
      let* idx := hash f item i in
      let* b := vget (bit_array f) idx in
      if negb b then Ok false else contains_loop n' (i + 1) f item
  end.

Definition possibly_contains (f : t) (item : string) : res bool :=
  contains_loop (Z.to_nat (num_hashes f)) 0 f item.

Definition get_memory_bits (f : t) : Z := size f.

(** Several [insert] calls in a row. *)
Fixpoint insert_all (f : t) (items : list string) : res t :=
  match items with
  | [] => Ok f
  | item :: rest => let* f' := insert f item in insert_all f' rest
  end.

(** The public interface as a machine: a call, the state after it and
    the value it returns. *)
Inductive call : Type :=
| Insert (item : string)
| PossiblyContains (item : string)
| GetMemoryBits.

Inductive value : Type :=
| VUnit
| VBool (b : bool)
| VInt (z : Z).

Definition exec (f : t) (c : call) : res (t * value) :=
  match c with
  | Insert item => let* f' := insert f item in Ok (f', VUnit)
  | PossiblyContains item => let* b := possibly_contains f item in Ok (f, VBool b)
  | GetMemoryBits => Ok (f, VInt (get_memory_bits f))
  end.

(** A filter as the constructor leaves it for a positive size, and as
    every [insert] keeps it. *)
Definition wf (f : t) : Prop :=
  0 < size f <= INT_MAX /\ Z.of_nat (length (bit_array f)) = size f.

(** [g] has the parameters of [f] and every bit that [f] has set. *)
Definition extends (f g : t) : Prop :=
  size g = size f /\ num_hashes g = num_hashes f /\
  length (bit_array g) = length (bit_array f) /\
  forall n : nat, bit_array f !! n = Some true -> bit_array g !! n = Some true.

(** Every bit that [item] hashes to is set in [f]. *)
Definition covers (f : t) (item : string) : Prop :=
  forall i, 0 <= i < num_hashes f ->
    exists idx, hash f item i = Ok idx /\ vget (bit_array f) idx = Ok true.

(** [n] is one of the slots of the bit array that [item] hashes to. *)
Definition hits (f : t) (item : string) (n : nat) : Prop :=
  exists i idx, 0 <= i < num_hashes f /\ hash f item i = Ok idx /\
                slot (bit_array f) idx = Ok n.

End WithHasher.
End StandardBloomFilter.

(** ** The sandwiched learned Bloom filter *)

Module SandwichedLearnedBloomFilter.

Record t : Type := mk {
  L1_filter : StandardBloomFilter.t;
  L3_filter : StandardBloomFilter.t
}.

(** [isdigit(c)] in the "C" locale. *)
Definition isdigit (c : ascii) : bool :=
  let n := Z.of_nat (nat_of_ascii c) in (48 <=? n) && (n <=? 57).

(** [f1++] and [f2++] are increments of an [int]. *)
Definition int_incr (z : Z) : res Z := int_add z 1.

(** The loop of [extract_features]: [f1] counts the digits, [f2] the
    hyphens, both in [int] counters. *)
Fixpoint count_features (item : string) (f1 f2 : Z) : res (Z * Z) :=
  match item with
  | EmptyString => Ok (f1, f2)
  | String c rest =>
      let* f1' := (if isdigit c then int_incr f1 else Ok f1) in
      let* f2' := (if Ascii.eqb c "-" then int_incr f2 else Ok f2) in
      count_features rest f1' f2'
  end.

(** [extract_features(item, f0, f1, f2)]; [f0 = item.length()] converts
    a [size_t] to [int]. *)
Definition extract_features (item : string) : res (Z * Z * Z) :=
  let f0 := to_int (Z.of_nat (String.length item)) in
  let* counts := count_features item 0 0 in
  Ok (f0, fst counts, snd counts).

(** How many digits and how many hyphens a key has, as numbers. *)
Fixpoint feature_counts (item : string) : Z * Z :=
  match item with
  | EmptyString => (0, 0)
  | String c rest =>
      let '(digits, hyphens) := feature_counts rest in
      ((if isdigit c then 1 else 0) + digits,
       (if Ascii.eqb c "-" then 1 else 0) + hyphens)
  end.

(** The keys whose digits and hyphens the [int] counters can count. *)
Definition features_fit (item : string) : Prop :=
  fst (feature_counts item) <= INT_MAX /\ snd (feature_counts item) <= INT_MAX.

(** A key of [n] digits. *)
Fixpoint digit_key (n : nat) : string :=
  match n with
  | O => EmptyString
  | S n' => String "0" (digit_key n')
  end.

Section WithHasher.

Variable hasher : string -> Z.

(** The constructor builds [L1_filter], then [L3_filter]. *)
Definition new (L1_size L1_hashes L3_size L3_hashes : Z) : res t :=
  let* l1 := StandardBloomFilter.new L1_size L1_hashes in
  let* l3 := StandardBloomFilter.new L3_size L3_hashes in
  Ok {| L1_filter := l1; L3_filter := l3 |}.

Definition insert_L1 (f : t) (item : string) : res t :=
  let* l1 := StandardBloomFilter.insert hasher (L1_filter f) item in
  Ok {| L1_filter := l1; L3_filter := L3_filter f |}.

Definition insert_L3 (f : t) (item : string) : res t :=
  let* l3 := StandardBloomFilter.insert hasher (L3_filter f) item in
  Ok {| L1_filter := L1_filter f; L3_filter := l3 |}.

(** The sum is an [int] sum. *)
Definition get_memory_bits (f : t) : res Z :=
  int_add (StandardBloomFilter.get_memory_bits (L1_filter f))
          (StandardBloomFilter.get_memory_bits (L3_filter f)).

Section WithClassifier.

(** [evaluate_model] is declared in [decision_tree.h], which is not
    among the sources: the classifier is a parameter.  Its result is
    used as a condition. *)
Variable evaluate_model : Z -> Z -> Z -> bool.

(** The classifier's answer for a key, on the features extracted from
    it. *)
Definition predicts_member (item : string) : res bool :=
  let* features := extract_features item in
  let '(f0, f1, f2) := features in Ok (evaluate_model f0 f1 f2).

Definition query (f : t) (item : string) : res bool :=
  let* in_L1 := StandardBloomFilter.possibly_contains hasher (L1_filter f) item in
  if negb in_L1 then Ok false
  else
    let* features := extract_features item in
    let '(f0, f1, f2) := features in
    if evaluate_model f0 f1 f2 then Ok true
    else StandardBloomFilter.possibly_contains hasher (L3_filter f) item.

(** The public interface as a machine. *)
Inductive call : Type :=
| InsertL1 (item : string)
| InsertL3 (item : string)
| Query (item : string)
| GetMemoryBits.

Definition exec (f : t) (c : call)
  : res (t * StandardBloomFilter.value) :=
  match c with
  | InsertL1 item =>
      let* f' := insert_L1 f item in Ok (f', StandardBloomFilter.VUnit)
  | InsertL3 item =>
      let* f' := insert_L3 f item in Ok (f', StandardBloomFilter.VUnit)
  | Query item =>
      let* b := query f item in Ok (f, StandardBloomFilter.VBool b)
  | GetMemoryBits =>
      let* z := get_memory_bits f in Ok (f, StandardBloomFilter.VInt z)
  end.

End WithClassifier.

(** Population: any sequence of calls of the two insertion methods. *)
Inductive insertion : Type :=
| IntoL1 (item : string)
| IntoL3 (item : string).

Definition apply_insertion (f : t) (op : insertion) : res t :=
  match op with
  | IntoL1 item => insert_L1 f item
  | IntoL3 item => insert_L3 f item
  end.

Fixpoint populate (f : t) (ops : list insertion) : res t :=
  match ops with
  | [] => Ok f
  | op :: rest => let* f' := apply_insertion f op in populate f' rest
  end.

Definition wf (f : t) : Prop :=
  StandardBloomFilter.wf (L1_filter f) /\ StandardBloomFilter.wf (L3_filter f).

(** The keys a population sends to each layer, in call order. *)
Fixpoint L1_keys (ops : list insertion) : list string :=
  match ops with
  | [] => []
  | IntoL1 item :: rest => item :: L1_keys rest
  | IntoL3 _ :: rest => L1_keys rest
  end.

Fixpoint L3_keys (ops : list insertion) : list string :=
  match ops with
  | [] => []
  | IntoL1 _ :: rest => L3_keys rest
  | IntoL3 item :: rest => item :: L3_keys rest
  end.

End WithHasher.
End SandwichedLearnedBloomFilter.

(** ** The benchmark of [main]: test data and population loop *)

Module Benchmark.

Definition malicious_url (i : Z) : string :=
  ("http://bad-hacker-site-" ++ to_string i ++ ".com")%string.

Definition safe_url (i : Z) : string :=
  ("http://safe-site-" ++ to_string i ++ ".com")%string.

(** [for (int i = 0; i < 5000; i++) ... push_back(...)]. *)
Fixpoint generate (url : Z -> string) (n : nat) (i : Z) : list string :=
  match n with
  | O => []
  | S n' => url i :: generate url n' (i + 1)
  end.

Definition malicious_urls : list string := generate malicious_url 5000 0.
Definition safe_urls : list string := generate safe_url 5000 0.

Record state : Type := mk {
  standard_bf : StandardBloomFilter.t;
  learned_bf : SandwichedLearnedBloomFilter.t;
  rand_calls : nat     (* how many times [rand()] was called *)
}.

Section WithEnvironment.

Variable hasher : string -> Z.

(** [rand n] is what the [n]-th call of the C library's [rand()]
    returns. *)
Variable rand : nat -> Z.

(** [StandardBloomFilter standard_bf(3000, 3)] and
    [SandwichedLearnedBloomFilter learned_bf(1000, 2, 500, 2)]. *)
Definition setup : res state :=
  let* s := StandardBloomFilter.new 3000 3 in
  let* l := SandwichedLearnedBloomFilter.new 1000 2 500 2 in
  Ok {| standard_bf := s; learned_bf := l; rand_calls := O |}.

(** [rand() % 100 < 10]; [%] on [int] truncates. *)
Definition falls_to_L3 (r : Z) : bool := Z.rem r 100 <? 10.

(** The body of the population loop. *)
Definition populate_step (st : state) (url : string) : res state :=
  let* s := StandardBloomFilter.insert hasher (standard_bf st) url in
  let* l := SandwichedLearnedBloomFilter.insert_L1 hasher (learned_bf st) url in
  let* l' :=
    if falls_to_L3 (rand (rand_calls st))
    then SandwichedLearnedBloomFilter.insert_L3 hasher l url
    else Ok l in
  Ok {| standard_bf := s; learned_bf := l'; rand_calls := S (rand_calls st) |}.

(** [for (const auto& url : malicious_urls) ...]. *)
Fixpoint populate (st : state) (urls : list string) : res state :=
  match urls with
  | [] => Ok st
  | url :: rest => let* st' := populate_step st url in populate st' rest
  end.

(** [if (standard_bf.possibly_contains(url)) standard_fps++;] for each
    URL of the list. *)
Fixpoint count_standard_fps
    (f : StandardBloomFilter.t) (urls : list string) (fps : Z) : res Z :=
  match urls with
  | [] => Ok fps
  | url :: rest =>
      let* b := StandardBloomFilter.possibly_contains hasher f url in
      let* fps' := (if b then int_add fps 1 else Ok fps) in
      count_standard_fps f rest fps'
  end.

Section WithClassifier.

Variable evaluate_model : Z -> Z -> Z -> bool.

(** [if (learned_bf.query(url)) learned_fps++;] for each URL of the
    list. *)
Fixpoint count_learned_fps
    (f : SandwichedLearnedBloomFilter.t) (urls : list string) (fps : Z)
  : res Z :=
  match urls with
  | [] => Ok fps
  | url :: rest =>
      let* b := SandwichedLearnedBloomFilter.query hasher evaluate_model f url in
      let* fps' := (if b then int_add fps 1 else Ok fps) in
      count_learned_fps f rest fps'
  end.

(** The integers [main] prints: the two memory footprints and the two
    counts of false positives.  The timings and the floating-point
    rates derived from the counts are left out. *)
Record report : Type := mk_report {
  standard_bits : Z;
  learned_bits : Z;
  standard_fps : Z;
  learned_fps : Z
}.

Definition main : res report :=
  let* st0 := setup in
  let* st := populate st0 malicious_urls in
  let* sfps := count_standard_fps (standard_bf st) safe_urls 0 in
  let* lfps := count_learned_fps (learned_bf st) safe_urls 0 in
  let sbits := StandardBloomFilter.get_memory_bits (standard_bf st) in
  let* lbits := SandwichedLearnedBloomFilter.get_memory_bits (learned_bf st) in
  Ok {| standard_bits := sbits; learned_bits := lbits;
        standard_fps := sfps; learned_fps := lfps |}.

End WithClassifier.

End WithEnvironment.
End Benchmark.

Module SBF := StandardBloomFilter.
Module SLBF := SandwichedLearnedBloomFilter.

(** ** Sample instances

    A concrete hash function and a concrete classifier, to run the
    model on. *)

Fixpoint sample_hasher (s : string) : Z :=
  match s with
  | EmptyString => 5381
  | String c rest =>
      (Z.of_nat (nat_of_ascii c) + 33 * sample_hasher rest) mod SIZE_MODULUS
  end.

(** A classifier that flags the keys with at least three hyphens. *)
Definition sample_model (f0 f1 f2 : Z) : bool := 3 <=? f2.

Definition sample_filter : StandardBloomFilter.t :=
  StandardBloomFilter.mk (replicate 8 false) 8 2.

Definition sample_sandwich : SandwichedLearnedBloomFilter.t :=
  SandwichedLearnedBloomFilter.mk
    (StandardBloomFilter.mk (replicate 8 false) 8 2)
    (StandardBloomFilter.mk (replicate 4 false) 4 2).

(** A filter with every bit set. *)
Definition sample_full_filter : StandardBloomFilter.t :=
  StandardBloomFilter.mk (replicate 8 true) 8 2.

(** The sample sandwich after ["x"] went into both layers and
    ["a-b-c-d"] into L1. *)
Definition sample_populated : SandwichedLearnedBloomFilter.t :=
  match
    SandwichedLearnedBloomFilter.populate sample_hasher sample_sandwich
      [SandwichedLearnedBloomFilter.IntoL1 "x";
       SandwichedLearnedBloomFilter.IntoL3 "x";
       SandwichedLearnedBloomFilter.IntoL1 "a-b-c-d"]%string
  with
  | Ok f => f
  | Fault _ => sample_sandwich
  end.

(** A key of 2^31 digits, and a classifier that looks at the sign of
    the digit count. *)
Definition long_digit_key : string :=
  SandwichedLearnedBloomFilter.digit_key (Z.to_nat (2 ^ 31)).

Definition digit_sign_model (f0 f1 f2 : Z) : bool := 0 <=? f1.

(** A sequence of draws of [rand()]. *)
Definition sample_rand (n : nat) : Z := 7 * Z.of_nat n.

Definition sample_state : Benchmark.state :=
  Benchmark.mk sample_filter sample_sandwich O.

(** * Proofs *)

(** ** Machine integers and vectors *)

Lemma to_size_t_small (z : Z) : 0 <= z < SIZE_MODULUS -> to_size_t z = z.
Proof. intros H. unfold to_size_t. now apply Z.mod_small. Qed.

Lemma to_int_small (z : Z) : is_int z -> to_int z = z.
Proof.
  unfold is_int, INT_MIN, INT_MAX, to_int. intros H.
  rewrite Z.mod_small; lia.
Qed.

Lemma to_size_t_range (z : Z) : 0 <= to_size_t z < SIZE_MODULUS.
Proof. unfold to_size_t, SIZE_MODULUS. apply Z.mod_pos_bound. lia. Qed.

Lemma bind_Ok {A B : Type} (c : res A) (k : A -> res B) (b : B) :
  bind c k = Ok b -> exists a, c = Ok a /\ k a = Ok b.
Proof. destruct c as [a|e]; simpl; intros H; [eauto | discriminate]. Qed.

Lemma slot_Ok (v : list bool) (i : Z) (n : nat) :
  slot v i = Ok n -> (n < length v)%nat /\ n = Z.to_nat (to_size_t i).
Proof.
  unfold slot. pose proof (to_size_t_range i) as Hr.
  destruct (Z.ltb_spec (to_size_t i) (Z.of_nat (length v))); intros Heq;
    inversion Heq; subst. split; [lia | reflexivity].
Qed.

Lemma slot_in_range (v : list bool) (i : Z) :
  0 <= i < Z.of_nat (length v) -> i < SIZE_MODULUS ->
  slot v i = Ok (Z.to_nat i).
Proof.
  intros H Hi. unfold slot. rewrite to_size_t_small by lia.
  destruct (Z.ltb_spec i (Z.of_nat (length v))); [reflexivity | lia].
Qed.

Lemma vset_Ok (v v' : list bool) (i : Z) :
  vset v i true = Ok v' ->
  length v' = length v /\
  vget v' i = Ok true /\
  (forall n : nat, v !! n = Some true -> v' !! n = Some true).
Proof.
  unfold vset. intros H. apply bind_Ok in H as (n & Hn & H).
  inversion H; subst v'; clear H.
  pose proof (slot_Ok _ _ _ Hn) as [Hlt _].
  split; [apply length_insert|]. split.
  - unfold vget, slot in *. rewrite length_insert. 
    destruct (to_size_t i <? Z.of_nat (length v)); [|discriminate].
    inversion Hn; subst n. simpl.
    rewrite list_lookup_insert_eq by exact Hlt. reflexivity.
  - intros m Hm. destruct (Nat.eq_dec n m) as [->|Hne].
    + rewrite list_lookup_insert_eq by exact Hlt. reflexivity.
    + rewrite list_lookup_insert_ne by exact Hne. exact Hm.
Qed.

Lemma vget_true_lookup (v : list bool) (i : Z) :
  vget v i = Ok true ->
  exists n, slot v i = Ok n /\ v !! n = Some true.
Proof.
  unfold vget. intros H. apply bind_Ok in H as (n & Hn & H).
  exists n. split; [exact Hn|].
  destruct (v !! n) as [b|]; [|discriminate]. inversion H. reflexivity.
Qed.

(** Setting a bit that is already set changes nothing. *)
Lemma vset_set (v : list bool) (i : Z) :
  vget v i = Ok true -> vset v i true = Ok v.
Proof.
  intros H. apply vget_true_lookup in H as (n & Hn & Hl).
  unfold vset. rewrite Hn. simpl. f_equal. apply list_insert_id. exact Hl.
Qed.

(** [slot] looks at the length of the vector only. *)
Lemma slot_length (v w : list bool) (i : Z) :
  length v = length w -> slot v i = slot w i.
Proof. intros H. unfold slot. rewrite H. reflexivity. Qed.

Lemma popcount_insert_true (v : list bool) (n : nat) :
  (popcount v <= popcount (<[n := true]> v))%nat.
Proof.
  revert n. induction v as [|b v IH]; intros n; simpl; [lia|].
  destruct n as [|n]; simpl.
  - destruct b; lia.
  - specialize (IH n). lia.
Qed.

Lemma vset_popcount (v v' : list bool) (i : Z) :
  vset v i true = Ok v' -> (popcount v <= popcount v')%nat.
Proof.
  unfold vset. intros H. apply bind_Ok in H as (n & _ & H).
  inversion H. apply popcount_insert_true.
Qed.

Lemma resize_fresh (s : Z) :
  0 <= s <= INT_MAX -> resize [] s false = Ok (replicate (Z.to_nat s) false).
Proof.
  unfold INT_MAX. intros H. unfold resize.
  rewrite to_size_t_small by (unfold SIZE_MODULUS; lia).
  unfold vector_max_size. cbn [length app]. change (Z.of_nat 0) with 0.
  rewrite !Z.sub_0_r.
  destruct (Z.ltb_spec s 0); [lia|].
  destruct (Z.ltb_spec (2 ^ 63 - 64) s); [lia | reflexivity].
Qed.

Lemma resize_negative (s : Z) :
  INT_MIN <= s < 0 -> resize [] s false = Fault LengthError.
Proof.
  unfold INT_MIN. intros H. unfold resize.
  assert (Hs : to_size_t s = s + 2 ^ 64).
  { unfold to_size_t, SIZE_MODULUS.
    symmetry. apply (Z.mod_unique s (2 ^ 64) (-1)); lia. }
  rewrite Hs.
  unfold vector_max_size. cbn [length app]. change (Z.of_nat 0) with 0.
  rewrite !Z.sub_0_r.
  destruct (Z.ltb_spec (s + 2 ^ 64) 0); [lia|].
  destruct (Z.ltb_spec (2 ^ 63 - 64) (s + 2 ^ 64)); [reflexivity | lia].
Qed.

Lemma vget_preserved (v w : list bool) (i : Z) :
  length w = length v ->
  (forall n : nat, v !! n = Some true -> w !! n = Some true) ->
  vget v i = Ok true -> vget w i = Ok true.
Proof.
  intros Hlen Hbits H. apply vget_true_lookup in H as (n & Hn & Hl).
  unfold vget. rewrite (slot_length w v i Hlen), Hn. simpl.
  rewrite (Hbits n Hl). reflexivity.
Qed.

(** ** The standard Bloom filter *)

Section StandardFacts.

Variable hasher : string -> Z.

Lemma extends_refl (f : SBF.t) : SBF.extends f f.
Proof. unfold SBF.extends. auto. Qed.

Lemma extends_trans (f g h : SBF.t) :
  SBF.extends f g -> SBF.extends g h -> SBF.extends f h.
Proof.
  unfold SBF.extends. intros (Hs & Hk & Hl & Hb) (Hs' & Hk' & Hl' & Hb').
  repeat split; try congruence. auto.
Qed.

(** [hash] reads [size] only. *)
Lemma hash_same_size (f g : SBF.t) (item : string) (i : Z) :
  SBF.size g = SBF.size f -> SBF.hash hasher g item i = SBF.hash hasher f item i.
Proof. intros H. unfold SBF.hash. rewrite H. reflexivity. Qed.

(** With a positive [size], [hash] returns an index of the bit array. *)
Lemma hash_wf (f : SBF.t) (item : string) (i : Z) :
  SBF.wf f ->
  exists idx, SBF.hash hasher f item i = Ok idx /\ 0 <= idx < SBF.size f.
Proof.
  unfold SBF.wf, INT_MAX. intros [Hs _]. unfold SBF.hash.
  rewrite (to_size_t_small (SBF.size f)) by (unfold SIZE_MODULUS; lia).
  destruct (Z.eqb_spec (SBF.size f) 0) as [|_]; [lia|].
  pose proof (Z.mod_pos_bound
                (to_size_t (hasher (item ++ to_string i))) (SBF.size f)) as Hm.
  eexists. split; [reflexivity|].
  rewrite to_int_small; [lia|]. unfold is_int, INT_MIN, INT_MAX. lia.
Qed.

Lemma covers_extends (f g : SBF.t) (item : string) :
  SBF.covers hasher f item -> SBF.extends f g -> SBF.covers hasher g item.
Proof.
  unfold SBF.covers. intros Hc (Hs & Hk & Hl & Hb) i Hi.
  rewrite Hk in Hi. destruct (Hc i Hi) as (idx & Hh & Hg).
  exists idx. split.
  - rewrite (hash_same_size f g item i Hs). exact Hh.
  - exact (vget_preserved _ _ _ Hl Hb Hg).
Qed.

Lemma insert_loop_Ok (n : nat) (i : Z) (f g : SBF.t) (item : string) :
  SBF.insert_loop hasher n i f item = Ok g ->
  SBF.extends f g /\
  (popcount (SBF.bit_array f) <= popcount (SBF.bit_array g))%nat /\
  forall j, i <= j < i + Z.of_nat n ->
    exists idx, SBF.hash hasher f item j = Ok idx /\
                vget (SBF.bit_array g) idx = Ok true.
Proof.
  revert i f. induction n as [|n IH]; intros i f H.
  - simpl in H. inversion H; subst g.
    split; [apply extends_refl|]. split; [lia|]. intros j Hj. lia.
  - cbn [SBF.insert_loop] in H.
    apply bind_Ok in H as (idx & Hh & H). apply bind_Ok in H as (bits & Hv & H).
    apply IH in H as (Hext & Hpop & Hrest).
    destruct (vset_Ok _ _ _ Hv) as (Hlen & Hget & Hkeep).
    pose proof (vset_popcount _ _ _ Hv) as Hpop'.
    destruct Hext as (Hs & Hk & Hl & Hb). cbn in Hs, Hk, Hl, Hb, Hpop.
    split; [|split].
    + unfold SBF.extends. repeat split; try congruence. intros m Hm. auto.
    + lia.
    + intros j Hj. destruct (Z.eq_dec j i) as [->|Hne].
      * exists idx. split; [exact Hh|].
        apply (vget_preserved bits); auto.
      * destruct (Hrest j) as (idx' & Hh' & Hg'); [lia|].
        exists idx'. split; [|exact Hg'].
        rewrite <- Hh'. symmetry. apply hash_same_size. reflexivity.
Qed.

Lemma insert_loop_total (n : nat) (i : Z) (f : SBF.t) (item : string) :
  SBF.wf f ->
  exists g, SBF.insert_loop hasher n i f item = Ok g /\ SBF.wf g.
Proof.
  revert i f. induction n as [|n IH]; intros i f Hwf.
  - exists f. split; [reflexivity | exact Hwf].
  - cbn [SBF.insert_loop].
    destruct (hash_wf f item i Hwf) as (idx & Hh & Hidx). rewrite Hh. cbn [bind].
    destruct Hwf as [Hs Hlen].
    unfold vset. rewrite slot_in_range
      by (unfold INT_MAX, SIZE_MODULUS in *; lia).
    cbn [bind]. apply IH. unfold SBF.wf. cbn.
    rewrite length_insert. auto.
Qed.

(** On a filter that covers [item], the loops change and find nothing
    new. *)
Lemma insert_loop_covered (n : nat) (i : Z) (f : SBF.t) (item : string) :
  (forall j, i <= j < i + Z.of_nat n ->
     exists idx, SBF.hash hasher f item j = Ok idx /\
                 vget (SBF.bit_array f) idx = Ok true) ->
  SBF.insert_loop hasher n i f item = Ok f.
Proof.
  destruct f as [v s k]. revert i.
  induction n as [|n IH]; intros i H; [reflexivity|].
  cbn [SBF.insert_loop].
  destruct (H i) as (idx & Hh & Hg); [lia|].
  rewrite Hh. cbn [bind]. cbn [SBF.bit_array] in *.
  rewrite (vset_set v idx Hg). cbn [bind SBF.size SBF.num_hashes].
  apply IH. intros j Hj. apply H. lia.
Qed.

Lemma contains_loop_covered (n : nat) (i : Z) (f : SBF.t) (item : string) :
  (forall j, i <= j < i + Z.of_nat n ->
     exists idx, SBF.hash hasher f item j = Ok idx /\
                 vget (SBF.bit_array f) idx = Ok true) ->
  SBF.contains_loop hasher n i f item = Ok true.
Proof.
  revert i. induction n as [|n IH]; intros i H; [reflexivity|].
  cbn [SBF.contains_loop].
  destruct (H i) as (idx & Hh & Hg); [lia|].
  rewrite Hh. cbn [bind]. rewrite Hg. cbn [bind negb].
  apply IH. intros j Hj. apply H. lia.
Qed.

Lemma vget_in_range (v : list bool) (i : Z) :
  0 <= i < Z.of_nat (length v) -> i < SIZE_MODULUS ->
  exists b, vget v i = Ok b /\ v !! Z.to_nat i = Some b.
Proof.
  intros H Hi. unfold vget. rewrite slot_in_range by assumption. cbn [bind].
  destruct (lookup_lt_is_Some_2 v (Z.to_nat i)) as [b Hb]; [lia|].
  exists b. rewrite Hb. auto.
Qed.

Lemma contains_loop_total (n : nat) (i : Z) (f : SBF.t) (item : string) :
  SBF.wf f -> exists b, SBF.contains_loop hasher n i f item = Ok b.
Proof.
  intros Hwf. revert i. induction n as [|n IH]; intros i.
  - exists true. reflexivity.
  - cbn [SBF.contains_loop].
    destruct (hash_wf f item i Hwf) as (idx & Hh & Hidx). rewrite Hh. cbn [bind].
    destruct Hwf as [Hs Hlen].
    destruct (vget_in_range (SBF.bit_array f) idx) as (b & Hb & _);
      [lia | unfold INT_MAX, SIZE_MODULUS in *; lia |].
    rewrite Hb. cbn [bind]. destruct b; cbn [negb]; [apply IH | eauto].
Qed.

Lemma insert_Ok (f g : SBF.t) (item : string) :
  SBF.insert hasher f item = Ok g ->
  SBF.extends f g /\
  (popcount (SBF.bit_array f) <= popcount (SBF.bit_array g))%nat /\
  SBF.covers hasher g item.
Proof.
  unfold SBF.insert. intros H. apply insert_loop_Ok in H as (Hext & Hpop & Hc).
  split; [exact Hext|]. split; [exact Hpop|].
  destruct Hext as (Hs & Hk & _). intros i Hi. rewrite Hk in Hi.
  destruct (Hc i) as (idx & Hh & Hg); [lia|].
  exists idx. split; [|exact Hg].
  rewrite (hash_same_size f g item i Hs). exact Hh.
Qed.

Lemma insert_total (f : SBF.t) (item : string) :
  SBF.wf f -> exists g, SBF.insert hasher f item = Ok g /\ SBF.wf g.
Proof. apply insert_loop_total. Qed.

Lemma insert_covered (f : SBF.t) (item : string) :
  SBF.covers hasher f item -> SBF.insert hasher f item = Ok f.
Proof.
  intros Hc. apply insert_loop_covered. intros j Hj. apply Hc. lia.
Qed.

Lemma contains_covered (f : SBF.t) (item : string) :
  SBF.covers hasher f item -> SBF.possibly_contains hasher f item = Ok true.
Proof.
  intros Hc. apply contains_loop_covered. intros j Hj. apply Hc. lia.
Qed.

Lemma contains_total (f : SBF.t) (item : string) :
  SBF.wf f -> exists b, SBF.possibly_contains hasher f item = Ok b.
Proof. apply contains_loop_total. Qed.

Lemma insert_all_Ok (items : list string) (f g : SBF.t) :
  SBF.insert_all hasher f items = Ok g ->
  SBF.extends f g /\
  (popcount (SBF.bit_array f) <= popcount (SBF.bit_array g))%nat.
Proof.
  revert f. induction items as [|item rest IH]; intros f H.
  - inversion H. split; [apply extends_refl | lia].
  - cbn [SBF.insert_all] in H. apply bind_Ok in H as (f' & Hi & H).
    apply insert_Ok in Hi as (He & Hp & _). apply IH in H as (He' & Hp').
    split; [exact (extends_trans _ _ _ He He') | lia].
Qed.

Lemma insert_all_total (items : list string) (f : SBF.t) :
  SBF.wf f -> exists g, SBF.insert_all hasher f items = Ok g /\ SBF.wf g.
Proof.
  revert f. induction items as [|item rest IH]; intros f Hwf.
  - exists f. split; [reflexivity | exact Hwf].
  - cbn [SBF.insert_all].
    destruct (insert_total f item Hwf) as (f' & Hi & Hwf').
    rewrite Hi. cbn [bind]. apply IH. exact Hwf'.
Qed.

(** What the constructor builds. *)
Lemma new_fresh (s k : Z) :
  0 <= s <= INT_MAX ->
  SBF.new s k = Ok (SBF.mk (replicate (Z.to_nat s) false) s k).
Proof. intros H. unfold SBF.new. rewrite resize_fresh by exact H. reflexivity. Qed.

Lemma new_wf (s k : Z) (f : SBF.t) :
  0 < s <= INT_MAX -> SBF.new s k = Ok f -> SBF.wf f.
Proof.
  intros H Hn. rewrite new_fresh in Hn by lia. inversion Hn; subst f.
  unfold SBF.wf. cbn. rewrite length_replicate. lia.
Qed.

(** A fresh filter has no bit set: the first check already fails. *)
Lemma contains_fresh (s k : Z) (item : string) :
  0 < s <= INT_MAX -> 1 <= k ->
  SBF.possibly_contains hasher
    (SBF.mk (replicate (Z.to_nat s) false) s k) item = Ok false.
Proof.
  intros Hs Hk.
  set (f := SBF.mk (replicate (Z.to_nat s) false) s k).
  assert (Hwf : SBF.wf f) by (apply (new_wf s k); [lia | apply new_fresh; lia]).
  unfold SBF.possibly_contains. cbn [SBF.num_hashes f].
  destruct (Z.to_nat k) as [|n] eqn:En; [lia|]. cbn [SBF.contains_loop].
  destruct (hash_wf f item 0 Hwf) as (idx & Hh & Hidx).
  rewrite Hh. cbn [bind]. destruct Hwf as [_ Hlen].
  destruct (vget_in_range (SBF.bit_array f) idx) as (b & Hb & Hl);
    [lia | unfold INT_MAX, SIZE_MODULUS in *; cbn in Hidx; lia |].
  rewrite Hb. cbn [bind]. cbn in Hl.
  apply lookup_replicate_1 in Hl as [-> _]. reflexivity.
Qed.

End StandardFacts.

Section StandardClaims.

Variable hasher : string -> Z.

(** C4 (no false negatives, standard filter).  On a filter of positive
    size, with any [num_hashes], [insert(k)] followed by any sequence of
    further [insert] calls all complete, and [possibly_contains(k)] then
    returns [true]. *)
Theorem standard_no_false_negatives
    (f : SBF.t) (k : string) (others : list string) :
  SBF.wf f ->
  exists f1 f2,
    SBF.insert hasher f k = Ok f1 /\
    SBF.insert_all hasher f1 others = Ok f2 /\
    SBF.possibly_contains hasher f2 k = Ok true.
Proof.
  intros Hwf.
  destruct (insert_total hasher f k Hwf) as (f1 & H1 & Hwf1).
  destruct (insert_all_total hasher others f1 Hwf1) as (f2 & H2 & _).
  exists f1, f2. repeat split; try assumption.
  apply contains_covered.
  apply insert_Ok in H1 as (_ & _ & Hc).
  apply insert_all_Ok in H2 as (He & _).
  exact (covers_extends hasher f1 f2 k Hc He).
Qed.

(** C6 (idempotence).  On a filter of positive size [insert(k)]
    completes, and a second [insert(k)] right after it completes too and
    leaves the state, bit array included, exactly as the first one
    left it. *)
Theorem insert_idempotent (f : SBF.t) (k : string) :
  SBF.wf f ->
  exists f1,
    SBF.insert hasher f k = Ok f1 /\ SBF.insert hasher f1 k = Ok f1.
Proof.
  intros Hwf. destruct (insert_total hasher f k Hwf) as (f1 & H1 & _).
  exists f1. split; [exact H1|].
  apply insert_covered. apply insert_Ok in H1 as (_ & _ & Hc). exact Hc.
Qed.

(** C7 (monotonicity).  Every call of the public interface on a filter
    of positive size completes; across it the number of set bits does
    not decrease and every set bit stays set; and a call other than
    [insert] leaves the whole state as it was. *)
Theorem set_bits_monotone (f : SBF.t) (c : SBF.call) :
  SBF.wf f ->
  exists f' v,
    SBF.exec hasher f c = Ok (f', v) /\
    (popcount (SBF.bit_array f) <= popcount (SBF.bit_array f'))%nat /\
    length (SBF.bit_array f') = length (SBF.bit_array f) /\
    (forall n : nat, SBF.bit_array f !! n = Some true ->
                     SBF.bit_array f' !! n = Some true) /\
    ((forall item, c <> SBF.Insert item) -> f' = f).
Proof.
  intros Hwf. destruct c as [item|item|]; cbn [SBF.exec].
  - destruct (insert_total hasher f item Hwf) as (f' & Hi & _).
    rewrite Hi. cbn [bind]. exists f', SBF.VUnit.
    apply insert_Ok in Hi as ((_ & _ & Hl & Hb) & Hp & _).
    repeat split; auto. intros Hne. now destruct (Hne item).
  - destruct (contains_total hasher f item Hwf) as (b & Hb).
    rewrite Hb. cbn [bind]. exists f, (SBF.VBool b). repeat split; auto.
  - exists f, (SBF.VInt (SBF.get_memory_bits f)). repeat split; auto.
Qed.

(** C10 (empty filter).  A filter freshly constructed with a positive
    size answers [false] to [possibly_contains] for every key when
    [num_hashes >= 1], and [true] for every key when [num_hashes = 0]. *)
Theorem fresh_filter_contains (s k : Z) (item : string) :
  0 < s <= INT_MAX ->
  exists f,
    SBF.new s k = Ok f /\
    (1 <= k -> SBF.possibly_contains hasher f item = Ok false) /\
    (k = 0 -> SBF.possibly_contains hasher f item = Ok true).
Proof.
  intros Hs. eexists. split; [apply new_fresh; lia|]. split.
  - intros Hk. apply contains_fresh; assumption.
  - intros ->. reflexivity.
Qed.

End StandardClaims.

Lemma standard_no_false_negatives_witness :
  exists f1 f2,
    SBF.insert sample_hasher sample_filter "a" = Ok f1 /\
    SBF.insert_all sample_hasher f1 ["b"; "c"]%string = Ok f2 /\
    SBF.possibly_contains sample_hasher f2 "a" = Ok true.
Proof.
  apply (standard_no_false_negatives sample_hasher sample_filter "a").
  unfold SBF.wf, INT_MAX. cbn. lia.
Defined.

Lemma insert_idempotent_witness :
  exists f1,
    SBF.insert sample_hasher sample_filter "a" = Ok f1 /\
    SBF.insert sample_hasher f1 "a" = Ok f1.
Proof.
  apply (insert_idempotent sample_hasher sample_filter "a").
  unfold SBF.wf, INT_MAX. cbn. lia.
Defined.

Lemma set_bits_monotone_witness :
  exists f' v,
    SBF.exec sample_hasher sample_filter (SBF.Insert "a") = Ok (f', v) /\
    (popcount (SBF.bit_array sample_filter) <= popcount (SBF.bit_array f'))%nat /\
    length (SBF.bit_array f') = length (SBF.bit_array sample_filter) /\
    (forall n : nat, SBF.bit_array sample_filter !! n = Some true ->
                     SBF.bit_array f' !! n = Some true) /\
    ((forall item, SBF.Insert "a" <> SBF.Insert item) -> f' = sample_filter).
Proof.
  apply (set_bits_monotone sample_hasher sample_filter (SBF.Insert "a")).
  unfold SBF.wf, INT_MAX. cbn. lia.
Defined.

Lemma fresh_filter_contains_witness :
  (exists f,
     SBF.new 3000 3 = Ok f /\
     SBF.possibly_contains sample_hasher f "http://safe-site-0.com" = Ok false) /\
  (exists f,
     SBF.new 3000 0 = Ok f /\
     SBF.possibly_contains sample_hasher f "http://safe-site-0.com" = Ok true).
Proof.
  split.
  - destruct (fresh_filter_contains sample_hasher 3000 3 "http://safe-site-0.com")
      as (f & Hn & H1 & _); [unfold INT_MAX; lia|].
    exists f. split; [exact Hn | apply H1; lia].
  - destruct (fresh_filter_contains sample_hasher 3000 0 "http://safe-site-0.com")
      as (f & Hn & _ & H0); [unfold INT_MAX; lia|].
    exists f. split; [exact Hn | apply H0; reflexivity].
Defined.

(** ** Feature extraction: the [int] counters *)

Lemma isdigit_hyphen_exclusive (c : ascii) :
  SLBF.isdigit c = true -> Ascii.eqb c "-" = false.
Proof.
  destruct (Ascii.eqb_spec c "-") as [->|]; [|reflexivity].
  vm_compute. discriminate.
Qed.

Lemma feature_counts_bounds (item : string) :
  0 <= fst (SLBF.feature_counts item) /\
  0 <= snd (SLBF.feature_counts item) /\
  fst (SLBF.feature_counts item) + snd (SLBF.feature_counts item)
    <= Z.of_nat (String.length item).
Proof.
  induction item as [|c rest IH]; [cbn; lia|].
  cbn [SLBF.feature_counts String.length].
  destruct (SLBF.feature_counts rest) as [d h]. cbn [fst snd] in *.
  pose proof (isdigit_hyphen_exclusive c) as Hex.
  destruct (SLBF.isdigit c); [rewrite (Hex eq_refl) | destruct (Ascii.eqb c "-")];
    lia.
Qed.

Lemma int_incr_Ok (z : Z) : 0 <= z < INT_MAX -> SLBF.int_incr z = Ok (z + 1).
Proof.
  unfold SLBF.int_incr, int_add, INT_MIN, INT_MAX. intros H.
  destruct (Z.leb_spec (- 2 ^ 31) (z + 1)); [|lia].
  destruct (Z.leb_spec (z + 1) (2 ^ 31 - 1)); [reflexivity | lia].
Qed.

Lemma int_incr_overflow (z : Z) :
  INT_MAX <= z -> SLBF.int_incr z = Fault SignedOverflow.
Proof.
  unfold SLBF.int_incr, int_add, INT_MIN, INT_MAX. intros H.
  destruct (Z.leb_spec (z + 1) (2 ^ 31 - 1)); [lia|].
  now rewrite andb_false_r.
Qed.

(** The loop counts what [feature_counts] counts as long as both
    counters stay representable, and overflows otherwise. *)
Lemma count_features_exact (item : string) (f1 f2 : Z) :
  0 <= f1 <= INT_MAX -> 0 <= f2 <= INT_MAX ->
  SLBF.count_features item f1 f2 =
  if (f1 + fst (SLBF.feature_counts item) <=? INT_MAX) &&
     (f2 + snd (SLBF.feature_counts item) <=? INT_MAX)
  then Ok (f1 + fst (SLBF.feature_counts item),
           f2 + snd (SLBF.feature_counts item))
  else Fault SignedOverflow.
Proof.
  revert f1 f2. induction item as [|c rest IH]; intros f1 f2 H1 H2.
  - cbn. rewrite !Z.add_0_r.
    destruct (Z.leb_spec f1 INT_MAX); [|lia].
    destruct (Z.leb_spec f2 INT_MAX); [reflexivity | lia].
  - cbn [SLBF.count_features SLBF.feature_counts].
    pose proof (feature_counts_bounds rest) as (Hd & Hh & _).
    destruct (SLBF.feature_counts rest) as [d h]. cbn [fst snd] in *.
    pose proof (isdigit_hyphen_exclusive c) as Hex.
    destruct (SLBF.isdigit c).
    + rewrite (Hex eq_refl). cbn [bind].
      destruct (Z.eq_dec f1 INT_MAX) as [->|Hne].
      * rewrite int_incr_overflow by lia. cbn [bind].
        destruct (Z.leb_spec (INT_MAX + (1 + d)) INT_MAX); [lia | reflexivity].
      * rewrite int_incr_Ok by lia. cbn [bind].
        rewrite IH by lia. cbn [fst snd].
        replace (f1 + 1 + d) with (f1 + (1 + d)) by lia.
        replace (f2 + (0 + h)) with (f2 + h) by lia. reflexivity.
    + cbn [bind]. destruct (Ascii.eqb c "-").
      * destruct (Z.eq_dec f2 INT_MAX) as [->|Hne].
        -- rewrite int_incr_overflow by lia. cbn [bind].
           destruct (Z.leb_spec (INT_MAX + (1 + h)) INT_MAX); [lia|].
           now rewrite andb_false_r.
        -- rewrite int_incr_Ok by lia. cbn [bind].
           rewrite IH by lia. cbn [fst snd].
           replace (f2 + 1 + h) with (f2 + (1 + h)) by lia.
           replace (f1 + (0 + d)) with (f1 + d) by lia. reflexivity.
      * cbn [bind]. rewrite IH by lia. cbn [fst snd].
        replace (f1 + (0 + d)) with (f1 + d) by lia.
        replace (f2 + (0 + h)) with (f2 + h) by lia. reflexivity.
Qed.

(** On a key that fits, the features are the length converted to
    [int], the number of digits and the number of hyphens. *)
Lemma extract_features_fit (item : string) :
  SLBF.features_fit item ->
  SLBF.extract_features item =
  Ok (to_int (Z.of_nat (String.length item)),
      fst (SLBF.feature_counts item), snd (SLBF.feature_counts item)).
Proof.
  intros [Hd Hh]. unfold SLBF.extract_features.
  rewrite count_features_exact by (unfold INT_MAX; lia). rewrite !Z.add_0_l.
  destruct (Z.leb_spec (fst (SLBF.feature_counts item)) INT_MAX); [|lia].
  destruct (Z.leb_spec (snd (SLBF.feature_counts item)) INT_MAX); [|lia].
  reflexivity.
Qed.

(** On any other key a counter overflows. *)
Lemma extract_features_overflow (item : string) :
  ~ SLBF.features_fit item ->
  SLBF.extract_features item = Fault SignedOverflow.
Proof.
  intros Hnot. unfold SLBF.extract_features.
  rewrite count_features_exact by (unfold INT_MAX; lia). rewrite !Z.add_0_l.
  destruct (Z.leb_spec (fst (SLBF.feature_counts item)) INT_MAX);
    [|reflexivity].
  destruct (Z.leb_spec (snd (SLBF.feature_counts item)) INT_MAX);
    [|reflexivity].
  destruct Hnot. split; assumption.
Qed.

Lemma short_key_fits (item : string) :
  Z.of_nat (String.length item) <= INT_MAX -> SLBF.features_fit item.
Proof.
  intros Hlen. pose proof (feature_counts_bounds item) as (Hd & Hh & Hsum).
  split; lia.
Qed.

Lemma predicts_member_fit
    (evaluate_model : Z -> Z -> Z -> bool) (item : string) :
  SLBF.features_fit item ->
  SLBF.predicts_member evaluate_model item =
  Ok (evaluate_model (to_int (Z.of_nat (String.length item)))
                     (fst (SLBF.feature_counts item))
                     (snd (SLBF.feature_counts item))).
Proof.
  intros Hfit. unfold SLBF.predicts_member.
  rewrite (extract_features_fit item Hfit). reflexivity.
Qed.

Lemma feature_counts_digit_key (n : nat) :
  SLBF.feature_counts (SLBF.digit_key n) = (Z.of_nat n, 0).
Proof.
  induction n as [|n IH]; [reflexivity|].
  cbn [SLBF.digit_key SLBF.feature_counts]. rewrite IH.
  change (SLBF.isdigit "0") with true. change (Ascii.eqb "0" "-") with false.
  f_equal. lia.
Qed.

(** ** The sandwiched learned Bloom filter *)

Section SandwichFacts.

Variable hasher : string -> Z.

Lemma insert_L1_Ok (f g : SLBF.t) (item : string) :
  SLBF.insert_L1 hasher f item = Ok g ->
  SBF.extends (SLBF.L1_filter f) (SLBF.L1_filter g) /\
  SBF.covers hasher (SLBF.L1_filter g) item /\
  SLBF.L3_filter g = SLBF.L3_filter f.
Proof.
  unfold SLBF.insert_L1. intros H. apply bind_Ok in H as (l1 & Hi & H).
  inversion H; subst g; cbn. apply insert_Ok in Hi as (He & _ & Hc). auto.
Qed.

Lemma insert_L3_Ok (f g : SLBF.t) (item : string) :
  SLBF.insert_L3 hasher f item = Ok g ->
  SBF.extends (SLBF.L3_filter f) (SLBF.L3_filter g) /\
  SBF.covers hasher (SLBF.L3_filter g) item /\
  SLBF.L1_filter g = SLBF.L1_filter f.
Proof.
  unfold SLBF.insert_L3. intros H. apply bind_Ok in H as (l3 & Hi & H).
  inversion H; subst g; cbn. apply insert_Ok in Hi as (He & _ & Hc). auto.
Qed.

Lemma insert_L1_total (f : SLBF.t) (item : string) :
  SLBF.wf f -> exists g, SLBF.insert_L1 hasher f item = Ok g /\ SLBF.wf g.
Proof.
  intros [H1 H3]. unfold SLBF.insert_L1.
  destruct (insert_total hasher _ item H1) as (l1 & Hi & Hwf). rewrite Hi.
  eexists. split; [reflexivity|]. split; assumption.
Qed.

Lemma insert_L3_total (f : SLBF.t) (item : string) :
  SLBF.wf f -> exists g, SLBF.insert_L3 hasher f item = Ok g /\ SLBF.wf g.
Proof.
  intros [H1 H3]. unfold SLBF.insert_L3.
  destruct (insert_total hasher _ item H3) as (l3 & Hi & Hwf). rewrite Hi.
  eexists. split; [reflexivity|]. split; assumption.
Qed.

Lemma apply_insertion_Ok (f g : SLBF.t) (op : SLBF.insertion) :
  SLBF.apply_insertion hasher f op = Ok g ->
  SBF.extends (SLBF.L1_filter f) (SLBF.L1_filter g) /\
  SBF.extends (SLBF.L3_filter f) (SLBF.L3_filter g).
Proof.
  destruct op as [item|item]; cbn [SLBF.apply_insertion]; intros H.
  - apply insert_L1_Ok in H as (He & _ & Heq). rewrite Heq.
    split; [exact He | apply extends_refl].
  - apply insert_L3_Ok in H as (He & _ & Heq). rewrite Heq.
    split; [apply extends_refl | exact He].
Qed.

(** After a population that completed, each layer covers the keys that
    were inserted into it. *)
Lemma populate_Ok (ops : list SLBF.insertion) (f g : SLBF.t) :
  SLBF.populate hasher f ops = Ok g ->
  (SBF.extends (SLBF.L1_filter f) (SLBF.L1_filter g) /\
   SBF.extends (SLBF.L3_filter f) (SLBF.L3_filter g)) /\
  (forall key, In (SLBF.IntoL1 key) ops ->
     SBF.covers hasher (SLBF.L1_filter g) key) /\
  (forall key, In (SLBF.IntoL3 key) ops ->
     SBF.covers hasher (SLBF.L3_filter g) key).
Proof.
  revert f. induction ops as [|op rest IH]; intros f H.
  - inversion H; subst g. repeat split; try apply extends_refl;
      intros key [].
  - cbn [SLBF.populate] in H. apply bind_Ok in H as (f' & Hop & H).
    destruct (IH f' H) as ((He1 & He3) & Hc1 & Hc3).
    destruct (apply_insertion_Ok _ _ _ Hop) as (Ha1 & Ha3).
    split; [split; eapply extends_trans; eassumption|].
    split; intros key [Heq|Hin]; auto; subst op; cbn in Hop.
    + apply insert_L1_Ok in Hop as (_ & Hc & _).
      exact (covers_extends hasher _ _ key Hc He1).
    + apply insert_L3_Ok in Hop as (_ & Hc & _).
      exact (covers_extends hasher _ _ key Hc He3).
Qed.

Lemma populate_total (ops : list SLBF.insertion) (f : SLBF.t) :
  SLBF.wf f -> exists g, SLBF.populate hasher f ops = Ok g /\ SLBF.wf g.
Proof.
  revert f. induction ops as [|op rest IH]; intros f Hwf.
  - exists f. split; [reflexivity | exact Hwf].
  - cbn [SLBF.populate].
    assert (exists f', SLBF.apply_insertion hasher f op = Ok f' /\ SLBF.wf f')
      as (f' & Hop & Hwf').
    { destruct op as [item|item]; cbn;
        [apply insert_L1_total | apply insert_L3_total]; exact Hwf. }
    rewrite Hop. cbn [bind]. apply IH. exact Hwf'.
Qed.

Lemma new_sandwich_fresh (l1 k1 l3 k3 : Z) :
  0 <= l1 <= INT_MAX -> 0 <= l3 <= INT_MAX ->
  SLBF.new l1 k1 l3 k3 =
  Ok (SLBF.mk (SBF.mk (replicate (Z.to_nat l1) false) l1 k1)
              (SBF.mk (replicate (Z.to_nat l3) false) l3 k3)).
Proof.
  intros H1 H3. unfold SLBF.new.
  rewrite (new_fresh l1 k1 H1). cbn [bind].
  rewrite (new_fresh l3 k3 H3). reflexivity.
Qed.

End SandwichFacts.

Section SandwichClaims.

Variable hasher : string -> Z.
Variable evaluate_model : Z -> Z -> Z -> bool.

(** C1 (no false negatives, sandwich), amended.  On a sandwich whose
    two layers have positive sizes, every sequence of [insert_L1] and
    [insert_L3] calls completes; afterwards [query(key)] returns [true]
    for every key with fewer than 2^31 digits and fewer than 2^31
    hyphens for which [insert_L1(key)] was called and, when the
    classifier predicts non-member on the key's features,
    [insert_L3(key)] too.  The classifier is arbitrary. *)
Theorem sandwich_no_false_negatives
    (f0 : SLBF.t) (ops : list SLBF.insertion) :
  SLBF.wf f0 ->
  exists f,
    SLBF.populate hasher f0 ops = Ok f /\
    forall key,
      SLBF.features_fit key ->
      In (SLBF.IntoL1 key) ops ->
      (SLBF.predicts_member evaluate_model key = Ok false ->
       In (SLBF.IntoL3 key) ops) ->
      SLBF.query hasher evaluate_model f key = Ok true.
Proof.
  intros Hwf. destruct (populate_total hasher ops f0 Hwf) as (f & Hp & _).
  exists f. split; [exact Hp|]. intros key Hfit H1 H3.
  apply populate_Ok in Hp as (_ & Hc1 & Hc3).
  unfold SLBF.query. rewrite (contains_covered hasher _ key (Hc1 key H1)).
  cbn [bind negb]. rewrite (predicts_member_fit evaluate_model key Hfit) in H3.
  rewrite (extract_features_fit key Hfit). cbn [bind].
  destruct (evaluate_model _ _ _); [reflexivity|].
  apply contains_covered. apply Hc3. apply H3. reflexivity.
Qed.


(** C9 (frames of the two insertions).  On a sandwich whose two layers
    have positive sizes [insert_L1(key)] completes and leaves
    [L3_filter] as it was, [insert_L3(key)] completes and leaves
    [L1_filter] as it was, and the outcome of either call is the same
    whatever the classifier is. *)
Theorem insertion_frames (f : SLBF.t) (key : string) :
  SLBF.wf f ->
  (exists f1, SLBF.insert_L1 hasher f key = Ok f1 /\
              SLBF.L3_filter f1 = SLBF.L3_filter f) /\
  (exists f3, SLBF.insert_L3 hasher f key = Ok f3 /\
              SLBF.L1_filter f3 = SLBF.L1_filter f) /\
  (forall other_model : Z -> Z -> Z -> bool,
     SLBF.exec hasher other_model f (SLBF.InsertL1 key) =
     SLBF.exec hasher evaluate_model f (SLBF.InsertL1 key) /\
     SLBF.exec hasher other_model f (SLBF.InsertL3 key) =
     SLBF.exec hasher evaluate_model f (SLBF.InsertL3 key)).
Proof.
  intros Hwf. repeat split.
  - destruct (insert_L1_total hasher f key Hwf) as (f1 & H1 & _).
    exists f1. split; [exact H1|]. now apply insert_L1_Ok in H1.
  - destruct (insert_L3_total hasher f key Hwf) as (f3 & H3 & _).
    exists f3. split; [exact H3|]. now apply insert_L3_Ok in H3.
Qed.

End SandwichClaims.

Lemma sandwich_no_false_negatives_witness :
  exists f,
    SLBF.populate sample_hasher sample_sandwich
      [SLBF.IntoL1 "a-b-c-d"; SLBF.IntoL1 "x"; SLBF.IntoL3 "x"]%string = Ok f /\
    SLBF.query sample_hasher sample_model f "a-b-c-d" = Ok true /\
    SLBF.query sample_hasher sample_model f "x" = Ok true.
Proof.
  destruct (sandwich_no_false_negatives sample_hasher sample_model
              sample_sandwich
              [SLBF.IntoL1 "a-b-c-d"; SLBF.IntoL1 "x"; SLBF.IntoL3 "x"]%string)
    as (f & Hp & Hq).
  - unfold SLBF.wf, SBF.wf, INT_MAX. cbn. lia.
  - exists f. split; [exact Hp|]. split; apply Hq.
    + split; vm_compute; discriminate.
    + left. reflexivity.
    + vm_compute. discriminate.
    + split; vm_compute; discriminate.
    + right. left. reflexivity.
    + intros _. right. right. left. reflexivity.
Defined.

(** C1, as stated, fails on a long key: after [insert_L1] of a key of
    2^31 digits, for which the classifier predicts member on the key's
    feature vector so that the protocol asks for no [insert_L3],
    [query] does not return [true]: the [int] counter of the digits
    overflows. *)
Lemma long_key_not_reported :
  exists f,
    SLBF.populate sample_hasher sample_sandwich [SLBF.IntoL1 long_digit_key]
      = Ok f /\
    digit_sign_model (Z.of_nat (String.length long_digit_key))
                     (fst (SLBF.feature_counts long_digit_key))
                     (snd (SLBF.feature_counts long_digit_key)) = true /\
    SLBF.predicts_member digit_sign_model long_digit_key <> Ok false /\
    SLBF.query sample_hasher digit_sign_model f long_digit_key
      = Fault SignedOverflow /\
    SLBF.query sample_hasher digit_sign_model f long_digit_key <> Ok true.
Proof.
  assert (Hcounts : SLBF.feature_counts long_digit_key = (2 ^ 31, 0)).
  { unfold long_digit_key. rewrite feature_counts_digit_key.
    rewrite Z2Nat.id by lia. reflexivity. }
  assert (Hover : SLBF.extract_features long_digit_key = Fault SignedOverflow).
  { apply extract_features_overflow. unfold SLBF.features_fit.
    rewrite Hcounts. unfold INT_MAX. cbn [fst snd]. lia. }
  assert (Hwf : SLBF.wf sample_sandwich)
    by (unfold SLBF.wf, SBF.wf, INT_MAX; cbn; lia).
  destruct (populate_total sample_hasher [SLBF.IntoL1 long_digit_key]
              sample_sandwich Hwf) as (f & Hp & _).
  exists f. split; [exact Hp|]. split; [rewrite Hcounts; reflexivity|].
  assert (Hq : SLBF.query sample_hasher digit_sign_model f long_digit_key
               = Fault SignedOverflow).
  { apply populate_Ok in Hp as (_ & Hc1 & _).
    unfold SLBF.query.
    rewrite (contains_covered sample_hasher _ long_digit_key
               (Hc1 long_digit_key (or_introl eq_refl))).
    cbn [bind negb]. rewrite Hover. reflexivity. }
  split; [|split; [exact Hq | rewrite Hq; discriminate]].
  unfold SLBF.predicts_member. rewrite Hover. discriminate.
Qed.


Lemma insertion_frames_witness :
  (exists f1, SLBF.insert_L1 sample_hasher sample_sandwich "x" = Ok f1 /\
              SLBF.L3_filter f1 = SLBF.L3_filter sample_sandwich) /\
  (exists f3, SLBF.insert_L3 sample_hasher sample_sandwich "x" = Ok f3 /\
              SLBF.L1_filter f3 = SLBF.L1_filter sample_sandwich).
Proof.
  destruct (insertion_frames sample_hasher sample_model sample_sandwich "x")
    as (H1 & H3 & _).
  - unfold SLBF.wf, SBF.wf, INT_MAX. cbn. lia.
  - split; assumption.
Defined.

(** ** Construction and memory accounting *)

(** C8, as stated, fails: with two layers of 2^30 bits each the
    sandwich is constructed, and the [int] sum of the two sizes is not
    representable, so [get_memory_bits] does not return 2^31. *)
Lemma memory_accounting_overflow :
  exists g,
    SLBF.new (2 ^ 30) 2 (2 ^ 30) 2 = Ok g /\
    SLBF.get_memory_bits g = Fault SignedOverflow /\
    SLBF.get_memory_bits g <> Ok (2 ^ 30 + 2 ^ 30).
Proof.
  eexists. split; [apply new_sandwich_fresh; unfold INT_MAX; lia|].
  unfold SLBF.get_memory_bits, SBF.get_memory_bits.
  cbn [SLBF.L1_filter SLBF.L3_filter SBF.size].
  split; [reflexivity | discriminate].
Qed.

Section ConstructionClaims.

Variable hasher : string -> Z.

(** C8 (memory accounting), amended.  A standard filter constructed
    with size [s] reports [s], before and after any insertions; a
    sandwich constructed with [L1_size] and [L3_size] whose sum fits in
    an [int] reports [L1_size + L3_size], before and after any
    population.  The classifier is no argument of either function. *)
Theorem memory_accounting (s k l1 k1 l3 k3 : Z) :
  0 <= s <= INT_MAX ->
  0 <= l1 <= INT_MAX -> 0 <= l3 <= INT_MAX -> l1 + l3 <= INT_MAX ->
  (exists f,
     SBF.new s k = Ok f /\
     SBF.get_memory_bits f = s /\
     (forall items f', SBF.insert_all hasher f items = Ok f' ->
                       SBF.get_memory_bits f' = s) /\
     (0 < s -> forall items, exists f', SBF.insert_all hasher f items = Ok f')) /\
  (exists g,
     SLBF.new l1 k1 l3 k3 = Ok g /\
     SLBF.get_memory_bits g = Ok (l1 + l3) /\
     (forall ops g', SLBF.populate hasher g ops = Ok g' ->
                     SLBF.get_memory_bits g' = Ok (l1 + l3)) /\
     (0 < l1 -> 0 < l3 ->
      forall ops, exists g', SLBF.populate hasher g ops = Ok g')).
Proof.
  intros Hs H1 H3 Hsum. split.
  - eexists. split; [apply new_fresh; exact Hs|]. split; [reflexivity|]. split.
    + intros items f' Hi. apply insert_all_Ok in Hi as ((Hsz & _) & _).
      unfold SBF.get_memory_bits. rewrite Hsz. reflexivity.
    + intros Hpos items.
      destruct (insert_all_total hasher items
                  (SBF.mk (replicate (Z.to_nat s) false) s k)) as (f' & Hi & _);
        [|eauto].
      apply (new_wf s k); [lia | apply new_fresh; lia].
  - assert (Hadd : int_add l1 l3 = Ok (l1 + l3)).
    { unfold int_add, INT_MIN, INT_MAX in *.
      destruct (Z.leb_spec (- 2 ^ 31) (l1 + l3)); [|lia].
      destruct (Z.leb_spec (l1 + l3) (2 ^ 31 - 1)); [reflexivity | lia]. }
    eexists. split; [apply new_sandwich_fresh; assumption|].
    split; [exact Hadd|]. split.
    + intros ops g' Hp.
      apply populate_Ok in Hp as (((Hsz1 & _) & (Hsz3 & _)) & _).
      unfold SLBF.get_memory_bits, SBF.get_memory_bits.
      rewrite Hsz1, Hsz3. exact Hadd.
    + intros Hp1 Hp3 ops.
      destruct (populate_total hasher ops
                  (SLBF.mk (SBF.mk (replicate (Z.to_nat l1) false) l1 k1)
                           (SBF.mk (replicate (Z.to_nat l3) false) l3 k3)))
        as (g' & Hp & _); [|eauto].
      split; cbn [SLBF.L1_filter SLBF.L3_filter].
      * apply (new_wf l1 k1); [lia | apply new_fresh; lia].
      * apply (new_wf l3 k3); [lia | apply new_fresh; lia].
Qed.

End ConstructionClaims.

(** C5, as stated, fails: the constructor accepts size zero, and the
    first [insert] on the filter it returns takes a remainder by
    zero. *)
Lemma zero_size_accepted :
  SBF.new 0 3 = Ok (SBF.mk [] 0 3) /\
  SBF.insert sample_hasher (SBF.mk [] 0 3) "k" = Fault DivisionByZero.
Proof. split; reflexivity. Qed.

Section ValidationClaims.

Variable hasher : string -> Z.

(** C5 (constructor validation), amended.  The constructor checks
    nothing itself.  With a negative size the construction fails, of a
    standard filter and of a sandwich with such a layer, because
    [resize] throws for the size converted to [size_type].  With size
    zero the construction succeeds and gives a filter with an empty bit
    array; on it [insert] and [possibly_contains] take a remainder by
    zero when [num_hashes >= 1], and do nothing, respectively return
    [true], otherwise. *)
Theorem constructor_validation (s k : Z) (item : string) :
  is_int s ->
  (s < 0 ->
   SBF.new s k = Fault LengthError /\
   (forall l k', SLBF.new s k l k' = Fault LengthError) /\
   (forall l k', is_int l -> SLBF.new l k' s k = Fault LengthError)) /\
  (s = 0 ->
   SBF.new s k = Ok (SBF.mk [] 0 k) /\
   SLBF.new s k s k = Ok (SLBF.mk (SBF.mk [] 0 k) (SBF.mk [] 0 k)) /\
   (1 <= k ->
    SBF.insert hasher (SBF.mk [] 0 k) item = Fault DivisionByZero /\
    SBF.possibly_contains hasher (SBF.mk [] 0 k) item = Fault DivisionByZero) /\
   (k <= 0 ->
    SBF.insert hasher (SBF.mk [] 0 k) item = Ok (SBF.mk [] 0 k) /\
    SBF.possibly_contains hasher (SBF.mk [] 0 k) item = Ok true)).
Proof.
  intros [Hlo Hhi]. split.
  - intros Hneg.
    assert (Hnew : forall k0, SBF.new s k0 = Fault LengthError).
    { intros k0. unfold SBF.new. rewrite resize_negative by lia. reflexivity. }
    split; [apply Hnew|]. split.
    + intros l k'. unfold SLBF.new. rewrite Hnew. reflexivity.
    + intros l k' [Hl Hl']. unfold SLBF.new.
      destruct (Z.lt_ge_cases l 0) as [Hn|Hp].
      * unfold SBF.new at 1. rewrite resize_negative by lia. reflexivity.
      * rewrite new_fresh by lia. cbn [bind]. rewrite Hnew. reflexivity.
  - intros ->. split; [reflexivity|]. split; [reflexivity|]. split.
    + intros Hk. unfold SBF.insert, SBF.possibly_contains. cbn [SBF.num_hashes].
      destruct (Z.to_nat k) as [|n] eqn:En; [lia|]. split; reflexivity.
    + intros Hk. unfold SBF.insert, SBF.possibly_contains. cbn [SBF.num_hashes].
      replace (Z.to_nat k) with O by lia. split; reflexivity.
Qed.

End ValidationClaims.

Lemma constructor_validation_witness :
  SBF.new (-1) 3 = Fault LengthError /\
  SBF.new 0 3 = Ok (SBF.mk [] 0 3) /\
  SBF.possibly_contains sample_hasher (SBF.mk [] 0 3) "k" = Fault DivisionByZero.
Proof.
  split; [|split].
  - apply (constructor_validation sample_hasher (-1) 3 "k");
      [unfold is_int, INT_MIN, INT_MAX; lia | lia].
  - apply (constructor_validation sample_hasher 0 3 "k");
      [unfold is_int, INT_MIN, INT_MAX; lia | reflexivity].
  - apply (constructor_validation sample_hasher 0 3 "k");
      [unfold is_int, INT_MIN, INT_MAX; lia | reflexivity | lia].
Defined.

Lemma memory_accounting_witness :
  (exists f, SBF.new 3000 3 = Ok f /\ SBF.get_memory_bits f = 3000) /\
  (exists g, SLBF.new 1000 2 500 2 = Ok g /\
             SLBF.get_memory_bits g = Ok (1000 + 500)).
Proof.
  destruct (memory_accounting sample_hasher 3000 3 1000 2 500 2)
    as ((f & Hf & Hm & _) & (g & Hg & Hs & _));
    try (unfold INT_MAX; lia).
  split; [exists f | exists g]; auto.
Defined.

(** ** The population loop of the benchmark *)

Section BenchmarkFacts.

Variable hasher : string -> Z.
Variable rand : nat -> Z.

Lemma setup_Ok :
  Benchmark.setup =
  Ok (Benchmark.mk
        (SBF.mk (replicate 3000 false) 3000 3)
        (SLBF.mk (SBF.mk (replicate 1000 false) 1000 2)
                 (SBF.mk (replicate 500 false) 500 2))
        O).
Proof.
  unfold Benchmark.setup.
  rewrite (new_fresh 3000 3) by (unfold INT_MAX; lia). cbn [bind].
  rewrite (new_sandwich_fresh 1000 2 500 2) by (unfold INT_MAX; lia).
  reflexivity.
Qed.

(** One iteration: both unconditional insertions complete, and the
    draw alone decides about [insert_L3]. *)
Lemma populate_step_spec (st : Benchmark.state) (url : string) :
  SBF.wf (Benchmark.standard_bf st) -> SLBF.wf (Benchmark.learned_bf st) ->
  exists s l,
    SBF.insert hasher (Benchmark.standard_bf st) url = Ok s /\
    SLBF.insert_L1 hasher (Benchmark.learned_bf st) url = Ok l /\
    (Benchmark.falls_to_L3 (rand (Benchmark.rand_calls st)) = false ->
     Benchmark.populate_step hasher rand st url =
     Ok (Benchmark.mk s l (S (Benchmark.rand_calls st)))) /\
    (Benchmark.falls_to_L3 (rand (Benchmark.rand_calls st)) = true ->
     exists l', SLBF.insert_L3 hasher l url = Ok l' /\
       Benchmark.populate_step hasher rand st url =
       Ok (Benchmark.mk s l' (S (Benchmark.rand_calls st)))).
Proof.
  intros Hs Hl.
  destruct (insert_total hasher _ url Hs) as (s & Hi & _).
  destruct (insert_L1_total hasher _ url Hl) as (l & Hi1 & Hwf).
  exists s, l. split; [exact Hi|]. split; [exact Hi1|].
  unfold Benchmark.populate_step. rewrite Hi, Hi1. cbn [bind].
  split; intros Hd; rewrite Hd.
  - reflexivity.
  - destruct (insert_L3_total hasher l url Hwf) as (l' & Hi3 & _).
    exists l'. rewrite Hi3. auto.
Qed.

End BenchmarkFacts.

Section BenchmarkClaims.

Variable hasher : string -> Z.
Variable evaluate_model : Z -> Z -> Z -> bool.

(** C2 (L3 insertion policy): what the population loop of [main] does
    instead.  On the first malicious URL, when [rand()] returns
    1804289383 (83 modulo 100) the loop leaves L3 as constructed
    whatever the classifier predicts for the key, and [query] on that
    true-set key then answers what the classifier predicts, [false] for
    a negative prediction; when [rand()] returns 5 the loop inserts the
    key into L3 whatever the classifier predicts. *)
Theorem population_ignores_classifier :
  let url := Benchmark.malicious_url 0 in
  exists st0,
    Benchmark.setup = Ok st0 /\
    (exists st,
       Benchmark.populate hasher (fun _ => 1804289383) st0 [url] = Ok st /\
       SLBF.L3_filter (Benchmark.learned_bf st) =
       SLBF.L3_filter (Benchmark.learned_bf st0) /\
       exists prediction,
         SLBF.predicts_member evaluate_model url = Ok prediction /\
         SLBF.query hasher evaluate_model (Benchmark.learned_bf st) url =
         Ok prediction) /\
    (exists st l3,
       Benchmark.populate hasher (fun _ => 5) st0 [url] = Ok st /\
       SBF.insert hasher (SLBF.L3_filter (Benchmark.learned_bf st0)) url
         = Ok l3 /\
       SLBF.L3_filter (Benchmark.learned_bf st) = l3).
Proof.
  intros url. eexists. split; [apply setup_Ok|].
  set (st0 := Benchmark.mk _ _ _).
  assert (Hs : SBF.wf (Benchmark.standard_bf st0))
    by (unfold SBF.wf, INT_MAX; cbn; lia).
  assert (Hl : SLBF.wf (Benchmark.learned_bf st0))
    by (unfold SLBF.wf, SBF.wf, INT_MAX; cbn; lia).
  split.
  - destruct (populate_step_spec hasher (fun _ => 1804289383) st0 url Hs Hl)
      as (s & l & _ & Hi1 & Hstep & _).
    exists (Benchmark.mk s l 1).
    cbn [Benchmark.populate]. rewrite Hstep by reflexivity.
    cbn [bind Benchmark.learned_bf]. split; [reflexivity|].
    apply insert_L1_Ok in Hi1 as (_ & Hc & Heq).
    split; [exact Heq|].
    assert (Hf : SLBF.extract_features url = Ok (28, 1, 3)) by reflexivity.
    exists (evaluate_model 28 1 3).
    unfold SLBF.query, SLBF.predicts_member.
    rewrite (contains_covered hasher _ url Hc), Hf. cbn [bind negb].
    split; [reflexivity|].
    destruct (evaluate_model 28 1 3); [reflexivity|].
    rewrite Heq. apply (contains_fresh hasher 500 2); unfold INT_MAX; lia.
  - destruct (populate_step_spec hasher (fun _ => 5) st0 url Hs Hl)
      as (s & l & _ & Hi1 & _ & Hstep).
    destruct Hstep as (l' & Hi3 & Hstep); [reflexivity|].
    exists (Benchmark.mk s l' 1), (SLBF.L3_filter l').
    cbn [Benchmark.populate]. rewrite Hstep. cbn [bind Benchmark.learned_bf].
    split; [reflexivity|]. split; [|reflexivity].
    apply insert_L1_Ok in Hi1 as (_ & _ & Heq).
    unfold SLBF.insert_L3 in Hi3. apply bind_Ok in Hi3 as (l3 & Hi3 & Hl').
    inversion Hl'; subst l'. cbn [SLBF.L3_filter]. rewrite <- Heq. exact Hi3.
Qed.

End BenchmarkClaims.

(** * Further properties *)

(** ** Bit arrays *)

(** Two bit arrays of one length with the same set bits are equal. *)
Lemma bits_eq (v w : list bool) :
  length v = length w ->
  (forall n : nat, v !! n = Some true <-> w !! n = Some true) ->
  v = w.
Proof.
  intros Hlen H. apply list_eq. intros n.
  destruct (v !! n) as [b|] eqn:Hv; destruct (w !! n) as [c|] eqn:Hw.
  - destruct b, c; try reflexivity.
    + apply H in Hv. congruence.
    + apply H in Hw. congruence.
  - apply lookup_lt_Some in Hv. apply lookup_ge_None in Hw. lia.
  - apply lookup_lt_Some in Hw. apply lookup_ge_None in Hv. lia.
  - reflexivity.
Qed.

Lemma popcount_insert_le (v : list bool) (n : nat) :
  (popcount (<[n := true]> v) <= S (popcount v))%nat.
Proof.
  revert n. induction v as [|b v IH]; intros n; simpl; [lia|].
  destruct n as [|n]; simpl.
  - destruct b; lia.
  - specialize (IH n). lia.
Qed.

Lemma popcount_le_length (v : list bool) : (popcount v <= length v)%nat.
Proof. induction v as [|[] v IH]; simpl; lia. Qed.

Lemma popcount_all_false (v : list bool) :
  (forall n : nat, v !! n <> Some true) -> popcount v = O.
Proof.
  induction v as [|b v IH]; intros H; [reflexivity|].
  destruct b; [now destruct (H O)|]. simpl. apply IH.
  intros n. exact (H (S n)).
Qed.

Lemma vget_slot (v : list bool) (i : Z) (b : bool) :
  vget v i = Ok b <-> exists n, slot v i = Ok n /\ v !! n = Some b.
Proof.
  unfold vget. split.
  - intros H. apply bind_Ok in H as (n & Hn & H). exists n. split; [exact Hn|].
    destruct (v !! n); [|discriminate]. inversion H. reflexivity.
  - intros (n & Hn & Hl). rewrite Hn. cbn [bind]. rewrite Hl. reflexivity.
Qed.

Section StandardExtras.

Variable hasher : string -> Z.

(** [hits] reads [size], [num_hashes] and the length of the bit array. *)
Lemma hits_extends (f g : SBF.t) (item : string) (n : nat) :
  SBF.extends f g -> (SBF.hits hasher g item n <-> SBF.hits hasher f item n).
Proof.
  intros (Hs & Hk & Hl & _). unfold SBF.hits.
  split; intros (i & idx & Hi & Hh & Hn); exists i, idx.
  - rewrite Hk in Hi. rewrite (hash_same_size hasher f g item i Hs) in Hh.
    rewrite (slot_length _ _ idx Hl) in Hn. auto.
  - rewrite <- Hk in Hi. rewrite <- (hash_same_size hasher f g item i Hs) in Hh.
    rewrite <- (slot_length _ _ idx Hl) in Hn. auto.
Qed.

Lemma insert_loop_exact (n : nat) (i : Z) (f g : SBF.t) (item : string) :
  SBF.insert_loop hasher n i f item = Ok g ->
  forall m : nat,
    SBF.bit_array g !! m = Some true <->
    SBF.bit_array f !! m = Some true \/
    exists j idx, i <= j < i + Z.of_nat n /\
                  SBF.hash hasher f item j = Ok idx /\
                  slot (SBF.bit_array f) idx = Ok m.
Proof.
  revert i f. induction n as [|n IH]; intros i f H m.
  - inversion H; subst g. split; [auto|].
    intros [Hm|(j & idx & Hj & _)]; [exact Hm | lia].
  - cbn [SBF.insert_loop] in H.
    apply bind_Ok in H as (idx & Hh & H). apply bind_Ok in H as (bits & Hv & H).
    unfold vset in Hv. apply bind_Ok in Hv as (p & Hp & Hv).
    inversion Hv; subst bits; clear Hv.
    pose proof (slot_Ok _ _ _ Hp) as [Hlt _].
    rewrite (IH _ _ H m). cbn [SBF.bit_array SBF.size SBF.num_hashes].
    rewrite list_lookup_insert_Some. split.
    + intros [[(-> & _ & _)|(_ & Hm)]|(j & idx' & Hj & Hh' & Hs')].
      * right. exists i, idx. split; [lia|]. auto.
      * left. exact Hm.
      * right. exists j, idx'. split; [lia|]. split; [exact Hh'|].
        rewrite <- Hs'. apply slot_length. symmetry. apply length_insert.
    + intros [Hm|(j & idx' & Hj & Hh' & Hs')].
      * left. destruct (Nat.eq_dec p m) as [->|Hne]; [left | right]; auto.
      * destruct (Z.eq_dec j i) as [->|Hne].
        -- left. left. rewrite Hh in Hh'. inversion Hh'; subst idx'.
           rewrite Hp in Hs'. inversion Hs'; subst m. auto.
        -- right. exists j, idx'. split; [lia|]. split; [exact Hh'|].
           rewrite <- Hs'. apply slot_length. apply length_insert.
Qed.

Lemma insert_exact (f g : SBF.t) (item : string) :
  SBF.insert hasher f item = Ok g ->
  forall m : nat,
    SBF.bit_array g !! m = Some true <->
    SBF.bit_array f !! m = Some true \/ SBF.hits hasher f item m.
Proof.
  intros H m. unfold SBF.insert in H.
  rewrite (insert_loop_exact _ _ _ _ _ H m). unfold SBF.hits.
  split; (intros [Hm|(j & idx & Hj & Hh & Hn)]; [auto|]);
    right; exists j, idx; (split; [lia | auto]).
Qed.

Lemma insert_all_exact (items : list string) (f g : SBF.t) :
  SBF.insert_all hasher f items = Ok g ->
  forall m : nat,
    SBF.bit_array g !! m = Some true <->
    SBF.bit_array f !! m = Some true \/
    exists item, In item items /\ SBF.hits hasher f item m.
Proof.
  revert f. induction items as [|x rest IH]; intros f H m.
  - inversion H; subst g. split; [auto|]. intros [Hm|(item & [] & _)]. exact Hm.
  - cbn [SBF.insert_all] in H. apply bind_Ok in H as (f' & Hi & H).
    rewrite (IH f' H m), (insert_exact f f' x Hi m).
    pose proof (insert_Ok hasher f f' x Hi) as (He & _).
    split.
    + intros [[Hm|Hx]|(item & Hin & Hh)].
      * auto.
      * right. exists x. split; [left; reflexivity | exact Hx].
      * right. exists item. split; [right; exact Hin|].
        apply (hits_extends f f' item m He). exact Hh.
    + intros [Hm|(item & [<-|Hin] & Hh)].
      * auto.
      * auto.
      * right. exists item. split; [exact Hin|].
        apply (hits_extends f f' item m He). exact Hh.
Qed.

(** [possibly_contains] answers [true] only on a filter that covers the
    item. *)
Lemma contains_loop_true (n : nat) (i : Z) (f : SBF.t) (item : string) :
  SBF.contains_loop hasher n i f item = Ok true ->
  forall j, i <= j < i + Z.of_nat n ->
    exists idx, SBF.hash hasher f item j = Ok idx /\
                vget (SBF.bit_array f) idx = Ok true.
Proof.
  revert i. induction n as [|n IH]; intros i H j Hj; [lia|].
  cbn [SBF.contains_loop] in H.
  apply bind_Ok in H as (idx & Hh & H). apply bind_Ok in H as (b & Hb & H).
  destruct b; cbn [negb] in H; [|discriminate].
  destruct (Z.eq_dec j i) as [->|Hne]; [eauto|]. apply (IH (i + 1) H). lia.
Qed.

Lemma contains_true_covers (f : SBF.t) (item : string) :
  SBF.possibly_contains hasher f item = Ok true -> SBF.covers hasher f item.
Proof.
  intros H i Hi. apply (contains_loop_true _ _ _ _ H). lia.
Qed.

(** On a filter of positive size, covering an item is having all its
    slots set. *)
Lemma covers_hits (f : SBF.t) (item : string) :
  SBF.wf f ->
  (SBF.covers hasher f item <->
   forall n : nat, SBF.hits hasher f item n ->
                   SBF.bit_array f !! n = Some true).
Proof.
  intros Hwf. split.
  - intros Hc n (i & idx & Hi & Hh & Hn).
    destruct (Hc i Hi) as (idx' & Hh' & Hg).
    rewrite Hh in Hh'. inversion Hh'; subst idx'.
    apply vget_slot in Hg as (n' & Hn' & Hl). congruence.
  - intros H i Hi.
    destruct (hash_wf hasher f item i Hwf) as (idx & Hh & Hidx).
    exists idx. split; [exact Hh|]. destruct Hwf as [Hs Hlen].
    apply vget_slot. exists (Z.to_nat idx).
    assert (Hslot : slot (SBF.bit_array f) idx = Ok (Z.to_nat idx))
      by (apply slot_in_range; unfold INT_MAX, SIZE_MODULUS in *; lia).
    split; [exact Hslot|]. apply H. exists i, idx. auto.
Qed.

Lemma insert_all_same_keys (f : SBF.t) (items items' : list string) :
  SBF.wf f ->
  (forall x, In x items <-> In x items') ->
  SBF.insert_all hasher f items = SBF.insert_all hasher f items'.
Proof.
  intros Hwf Hsame.
  destruct (insert_all_total hasher items f Hwf) as (g & Hg & _).
  destruct (insert_all_total hasher items' f Hwf) as (g' & Hg' & _).
  rewrite Hg, Hg'. f_equal.
  pose proof (insert_all_Ok hasher _ _ _ Hg) as ((Hs & Hk & Hl & _) & _).
  pose proof (insert_all_Ok hasher _ _ _ Hg') as ((Hs' & Hk' & Hl' & _) & _).
  destruct g as [v s k], g' as [v' s' k']. cbn in *. f_equal; try congruence.
  apply bits_eq; [congruence|]. intros m.
  rewrite (insert_all_exact _ _ _ Hg m), (insert_all_exact _ _ _ Hg' m).
  cbn. split; (intros [Hm|(item & Hin & Hh)]; [auto|]);
    right; exists item; (split; [apply Hsame; exact Hin | exact Hh]).
Qed.

Lemma insert_loop_popcount (n : nat) (i : Z) (f g : SBF.t) (item : string) :
  SBF.insert_loop hasher n i f item = Ok g ->
  (popcount (SBF.bit_array g) <= popcount (SBF.bit_array f) + n)%nat.
Proof.
  revert i f. induction n as [|n IH]; intros i f H.
  - inversion H. lia.
  - cbn [SBF.insert_loop] in H.
    apply bind_Ok in H as (idx & Hh & H). apply bind_Ok in H as (bits & Hv & H).
    apply IH in H. cbn [SBF.bit_array] in H.
    unfold vset in Hv. apply bind_Ok in Hv as (p & _ & Hv).
    inversion Hv; subst bits.
    pose proof (popcount_insert_le (SBF.bit_array f) p). lia.
Qed.

Lemma insert_all_popcount (items : list string) (f g : SBF.t) :
  SBF.insert_all hasher f items = Ok g ->
  (popcount (SBF.bit_array g) <=
   popcount (SBF.bit_array f) + length items * Z.to_nat (SBF.num_hashes f))%nat.
Proof.
  revert f. induction items as [|x rest IH]; intros f H.
  - inversion H. lia.
  - cbn [SBF.insert_all] in H. apply bind_Ok in H as (f' & Hi & H).
    pose proof (insert_Ok hasher f f' x Hi) as ((_ & Hk & _) & _).
    apply IH in H. rewrite Hk in H.
    unfold SBF.insert in Hi. apply insert_loop_popcount in Hi.
    cbn [length]. lia.
Qed.

End StandardExtras.

(** ** Strings and [to_string] *)

Lemma string_app_assoc (a b c : string) :
  ((a ++ b) ++ c = a ++ (b ++ c))%string.
Proof. induction a as [|x a IH]; simpl; [reflexivity | now rewrite IH]. Qed.

Lemma string_app_inv_head (a b c : string) :
  (a ++ b = a ++ c)%string -> b = c.
Proof.
  induction a as [|x a IH]; simpl; intros H; [exact H|].
  inversion H. auto.
Qed.

Lemma string_app_length (a b : string) :
  String.length (a ++ b) = (String.length a + String.length b)%nat.
Proof. induction a as [|x a IH]; simpl; [reflexivity | now rewrite IH]. Qed.

(** [to_string] can be read back: different integers have different
    decimal representations. *)
Lemma to_string_inj (i j : Z) : to_string i = to_string j -> i = j.
Proof.
  unfold to_string. intros H. apply DecimalZ.to_int_inj.
  assert (Hnn : forall z, Z.to_int z <> Decimal.Pos Decimal.Nil /\
                          Z.to_int z <> Decimal.Neg Decimal.Nil).
  { intros [|p|p]; simpl; split; try discriminate;
      intros E; inversion E as [E'];
      exact (DecimalPos.Unsigned.to_uint_nonnil p E'). }
  assert (Hi : NilZero.int_of_string (NilZero.string_of_int (Z.to_int i))
               = Some (Z.to_int i)) by (apply NilZero.isi; apply Hnn).
  assert (Hj : NilZero.int_of_string (NilZero.string_of_int (Z.to_int j))
               = Some (Z.to_int j)) by (apply NilZero.isi; apply Hnn).
  rewrite H in Hi. congruence.
Qed.

(** ** The standard Bloom filter: hashing, exact contents, load *)

Section StandardProperties.

Variable hasher : string -> Z.

(** X1.  On a filter of positive size [hash] returns, for every key and
    every seed, an index of the bit array, and the index is the same on
    every filter of that size: it depends neither on the bits nor on
    the number of hash functions. *)
Theorem hash_in_range (f g : SBF.t) (item : string) (seed : Z) :
  SBF.wf f -> SBF.size g = SBF.size f ->
  exists idx,
    SBF.hash hasher f item seed = Ok idx /\
    0 <= idx < Z.of_nat (length (SBF.bit_array f)) /\
    SBF.hash hasher g item seed = Ok idx.
Proof.
  intros Hwf Hs. destruct (hash_wf hasher f item seed Hwf) as (idx & Hh & Hi).
  exists idx. split; [exact Hh|]. split; [destruct Hwf; lia|].
  rewrite (hash_same_size hasher f g item seed Hs). exact Hh.
Qed.

(** X2.  The seed is appended to the key in decimal, so a key that
    ends in digits shares hash values with its prefix: whenever the
    decimal form of [j] is the text [a] followed by the decimal form of
    [i], [hash(item + a, i)] is [hash(item, j)]. *)
Theorem hash_seed_concatenation (f : SBF.t) (item a : string) (i j : Z) :
  to_string j = (a ++ to_string i)%string ->
  SBF.hash hasher f (item ++ a) i = SBF.hash hasher f item j.
Proof.
  intros H. unfold SBF.hash. rewrite H, string_app_assoc. reflexivity.
Qed.

(** X3.  For one key, different seeds give the hasher different
    strings: the [k] probes of a key are the hasher's values on [k]
    different arguments. *)
Theorem hash_inputs_distinct (item : string) (i j : Z) :
  i <> j -> (item ++ to_string i)%string <> (item ++ to_string j)%string.
Proof.
  intros Hne H. apply Hne, to_string_inj.
  exact (string_app_inv_head _ _ _ H).
Qed.

(** X4.  [insert] sets the slots the item hashes to and no other: when
    [insert(item)] completes, a bit is set afterwards exactly when it
    was set before or is one of the item's slots; size, hash count and
    length of the bit array are unchanged. *)
Theorem insert_sets_exactly_hits (f g : SBF.t) (item : string) :
  SBF.insert hasher f item = Ok g ->
  SBF.size g = SBF.size f /\ SBF.num_hashes g = SBF.num_hashes f /\
  length (SBF.bit_array g) = length (SBF.bit_array f) /\
  forall m : nat,
    SBF.bit_array g !! m = Some true <->
    SBF.bit_array f !! m = Some true \/ SBF.hits hasher f item m.
Proof.
  intros H. pose proof (insert_Ok hasher f g item H) as ((Hs & Hk & Hl & _) & _).
  repeat split; try assumption; apply (insert_exact hasher f g item H).
Qed.

(** X5.  On a filter of positive size [possibly_contains] returns, and
    it returns [true] exactly when every slot the item hashes to is
    set; the early [return false] loses nothing. *)
Theorem contains_iff_slots_set (f : SBF.t) (item : string) :
  SBF.wf f ->
  exists b,
    SBF.possibly_contains hasher f item = Ok b /\
    (b = true <->
     forall n : nat, SBF.hits hasher f item n ->
                     SBF.bit_array f !! n = Some true).
Proof.
  intros Hwf. destruct (contains_total hasher f item Hwf) as (b & Hb).
  exists b. split; [exact Hb|].
  rewrite <- (covers_hits hasher f item Hwf). split.
  - intros ->. apply contains_true_covers. exact Hb.
  - intros Hc. rewrite (contains_covered hasher f item Hc) in Hb. congruence.
Qed.

(** X6.  What the filter answers after a series of insertions: on a
    filter of positive size the insertions complete, and afterwards
    [possibly_contains(key)] is [true] exactly when every slot of [key]
    was set at the start or is a slot of one of the inserted items.  So
    a key that was not inserted is reported exactly when its slots are
    all taken. *)
Theorem contains_after_inserts
    (f : SBF.t) (items : list string) (key : string) :
  SBF.wf f ->
  exists g b,
    SBF.insert_all hasher f items = Ok g /\
    SBF.possibly_contains hasher g key = Ok b /\
    (b = true <->
     forall n : nat, SBF.hits hasher f key n ->
       SBF.bit_array f !! n = Some true \/
       exists item, In item items /\ SBF.hits hasher f item n).
Proof.
  intros Hwf.
  destruct (insert_all_total hasher items f Hwf) as (g & Hg & Hwfg).
  destruct (contains_total hasher g key Hwfg) as (b & Hb).
  exists g, b. split; [exact Hg|]. split; [exact Hb|].
  pose proof (insert_all_Ok hasher _ _ _ Hg) as (He & _).
  assert (Hiff : b = true <-> SBF.covers hasher g key).
  { split.
    - intros ->. apply contains_true_covers. exact Hb.
    - intros Hc. rewrite (contains_covered hasher g key Hc) in Hb. congruence. }
  rewrite Hiff, (covers_hits hasher g key Hwfg). split.
  - intros H n Hn. apply (insert_all_exact hasher _ _ _ Hg n).
    apply H. apply (hits_extends hasher f g key n He). exact Hn.
  - intros H n Hn. apply (insert_all_exact hasher _ _ _ Hg n).
    apply H. apply (hits_extends hasher f g key n He). exact Hn.
Qed.

(** X7.  A positive answer is never withdrawn: once
    [possibly_contains(key)] has returned [true], it returns [true]
    after any further insertions, for a key that was inserted or
    not. *)
Theorem positives_persist
    (f g : SBF.t) (key : string) (items : list string) :
  SBF.possibly_contains hasher f key = Ok true ->
  SBF.insert_all hasher f items = Ok g ->
  SBF.possibly_contains hasher g key = Ok true.
Proof.
  intros Hc Hi. apply contains_covered.
  apply (covers_extends hasher f g key).
  - apply contains_true_covers. exact Hc.
  - apply (insert_all_Ok hasher items f g Hi).
Qed.

(** X8.  The state after a series of insertions depends on the set of
    inserted keys only: two series with the same keys, in any order and
    with any repetitions, leave a filter of positive size in the same
    state. *)
Theorem insert_order_irrelevant (f : SBF.t) (items items' : list string) :
  SBF.wf f ->
  (forall x, In x items <-> In x items') ->
  exists g,
    SBF.insert_all hasher f items = Ok g /\
    SBF.insert_all hasher f items' = Ok g.
Proof.
  intros Hwf Hsame.
  destruct (insert_all_total hasher items f Hwf) as (g & Hg & _).
  exists g. split; [exact Hg|].
  rewrite <- (insert_all_same_keys hasher f items items' Hwf Hsame). exact Hg.
Qed.

(** X9.  Load bound: after [n] insertions into a freshly constructed
    filter of positive size [s] with [k] hash functions, at most
    [n * k] bits are set, and at most [s]. *)
Theorem load_bound (s k : Z) (items : list string) :
  0 < s <= INT_MAX ->
  exists f g,
    SBF.new s k = Ok f /\
    SBF.insert_all hasher f items = Ok g /\
    (popcount (SBF.bit_array g) <= length items * Z.to_nat k)%nat /\
    (popcount (SBF.bit_array g) <= Z.to_nat s)%nat.
Proof.
  intros Hs.
  set (f := SBF.mk (replicate (Z.to_nat s) false) s k).
  assert (Hnew : SBF.new s k = Ok f) by (apply new_fresh; lia).
  pose proof (new_wf s k f Hs Hnew) as Hwf.
  destruct (insert_all_total hasher items f Hwf) as (g & Hg & Hwfg).
  exists f, g. split; [exact Hnew|]. split; [exact Hg|]. split.
  - pose proof (insert_all_popcount hasher items f g Hg) as Hp.
    rewrite (popcount_all_false (SBF.bit_array f)) in Hp; [exact Hp|].
    intros n Hn. cbn in Hn. apply lookup_replicate_1 in Hn as [Hn _].
    discriminate.
  - pose proof (popcount_le_length (SBF.bit_array g)).
    pose proof (insert_all_Ok hasher items f g Hg) as ((Hsz & _) & _).
    destruct Hwfg as [_ Hlen]. cbn in Hsz. lia.
Qed.

(** X10.  A saturated filter reports every key: when all bits of a
    filter of positive size are set, [possibly_contains] returns [true]
    for every key and [insert] changes nothing. *)
Theorem saturated_filter (f : SBF.t) (key : string) :
  SBF.wf f ->
  (forall n : nat, (n < length (SBF.bit_array f))%nat ->
                   SBF.bit_array f !! n = Some true) ->
  SBF.possibly_contains hasher f key = Ok true /\
  SBF.insert hasher f key = Ok f.
Proof.
  intros Hwf Hall.
  assert (Hc : SBF.covers hasher f key).
  { apply (covers_hits hasher f key Hwf).
    intros n (i & idx & _ & _ & Hn). apply Hall.
    apply (slot_Ok _ _ _ Hn). }
  split; [apply contains_covered | apply insert_covered]; exact Hc.
Qed.

End StandardProperties.

(** ** Feature extraction *)

Lemma feature_counts_app (a b : string) :
  SLBF.feature_counts (a ++ b) =
  (fst (SLBF.feature_counts a) + fst (SLBF.feature_counts b),
   snd (SLBF.feature_counts a) + snd (SLBF.feature_counts b)).
Proof.
  induction a as [|c a IH].
  - cbn. now destruct (SLBF.feature_counts b).
  - cbn [append SLBF.feature_counts]. rewrite IH.
    destruct (SLBF.feature_counts a) as [d h]. cbn [fst snd]. f_equal; lia.
Qed.

(** A decimal numeral consists of digits. *)
Lemma feature_counts_uint (u : Decimal.uint) :
  SLBF.feature_counts (NilEmpty.string_of_uint u) =
  (Z.of_nat (String.length (NilEmpty.string_of_uint u)), 0).
Proof.
  induction u as [|u IH|u IH|u IH|u IH|u IH|u IH|u IH|u IH|u IH|u IH];
    [reflexivity|..];
    cbn [NilEmpty.string_of_uint SLBF.feature_counts String.length];
    rewrite IH;
    match goal with
    | |- context [SLBF.isdigit ?c] =>
        change (SLBF.isdigit c) with true; change (Ascii.eqb c "-") with false
    end; f_equal; lia.
Qed.

Lemma feature_counts_to_string (i : Z) :
  0 <= i ->
  SLBF.feature_counts (to_string i) =
  (Z.of_nat (String.length (to_string i)), 0).
Proof.
  intros Hi. unfold to_string. destruct i as [|p|p]; [reflexivity| |lia].
  cbn [Z.to_int NilZero.string_of_int]. unfold NilZero.string_of_uint.
  pose proof (DecimalPos.Unsigned.to_uint_nonnil p) as Hnn.
  destruct (Pos.to_uint p) eqn:E; [now destruct Hnn|..];
    rewrite <- E; apply feature_counts_uint.
Qed.

(** The decimal form of an [int] is short: it has no more digits than
    the number has bits. *)
Lemma double_nb_digits (u : Decimal.uint) :
  (Decimal.nb_digits (Decimal.Little.double u) <= S (Decimal.nb_digits u) /\
   Decimal.nb_digits (Decimal.Little.succ_double u)
     <= S (Decimal.nb_digits u))%nat.
Proof.
  induction u as [|u IH|u IH|u IH|u IH|u IH|u IH|u IH|u IH|u IH|u IH];
    cbn [Decimal.Little.double Decimal.Little.succ_double Decimal.nb_digits];
    lia.
Qed.

Lemma little_uint_nb_digits (p : positive) (n : nat) :
  Z.pos p < 2 ^ Z.of_nat n ->
  (Decimal.nb_digits (Pos.to_little_uint p) <= n)%nat.
Proof.
  revert n. induction p as [p IH|p IH|]; intros n Hn.
  - destruct n as [|n]; [cbn in Hn; lia|].
    rewrite Nat2Z.inj_succ, Z.pow_succ_r in Hn by lia.
    cbn [Pos.to_little_uint].
    pose proof (double_nb_digits (Pos.to_little_uint p)) as [_ Hd].
    specialize (IH n). lia.
  - destruct n as [|n]; [cbn in Hn; lia|].
    rewrite Nat2Z.inj_succ, Z.pow_succ_r in Hn by lia.
    cbn [Pos.to_little_uint].
    pose proof (double_nb_digits (Pos.to_little_uint p)) as [Hd _].
    specialize (IH n). lia.
  - destruct n as [|n]; [cbn in Hn; lia|]. cbn. lia.
Qed.

Lemma string_of_uint_length (u : Decimal.uint) :
  String.length (NilEmpty.string_of_uint u) = Decimal.nb_digits u.
Proof.
  induction u as [|u IH|u IH|u IH|u IH|u IH|u IH|u IH|u IH|u IH|u IH];
    cbn [NilEmpty.string_of_uint String.length Decimal.nb_digits];
    congruence.
Qed.

Lemma to_string_length (i : Z) :
  0 <= i <= INT_MAX -> (String.length (to_string i) <= 31)%nat.
Proof.
  unfold INT_MAX. intros Hi. unfold to_string.
  destruct i as [|p|p]; [cbn; lia| |lia].
  cbn [Z.to_int NilZero.string_of_int]. unfold NilZero.string_of_uint.
  pose proof (DecimalPos.Unsigned.to_uint_nonnil p) as Hnn.
  assert (Hlen : (String.length (NilEmpty.string_of_uint (Pos.to_uint p))
                  <= 31)%nat).
  { rewrite string_of_uint_length. unfold Pos.to_uint.
    rewrite DecimalFacts.nb_digits_rev. apply little_uint_nb_digits.
    change (2 ^ Z.of_nat 31) with (2 ^ 31). lia. }
  destruct (Pos.to_uint p) eqn:E; [now destruct Hnn|..]; exact Hlen.
Qed.

Lemma extract_features_exact (item : string) :
  SLBF.extract_features item =
  if (fst (SLBF.feature_counts item) <=? INT_MAX) &&
     (snd (SLBF.feature_counts item) <=? INT_MAX)
  then Ok (to_int (Z.of_nat (String.length item)),
           fst (SLBF.feature_counts item), snd (SLBF.feature_counts item))
  else Fault SignedOverflow.
Proof.
  destruct (Z.leb_spec (fst (SLBF.feature_counts item)) INT_MAX) as [Hd|Hd];
    [destruct (Z.leb_spec (snd (SLBF.feature_counts item)) INT_MAX) as [Hh|Hh]|];
    cbn [andb].
  - apply extract_features_fit. split; assumption.
  - apply extract_features_overflow. intros [_ H]. lia.
  - apply extract_features_overflow. intros [H _]. lia.
Qed.

Section FeatureProperties.

Variable evaluate_model : Z -> Z -> Z -> bool.

(** X12.  For a key shorter than 2^31 characters the features are
    extracted, [f0] is its length, [f1] and [f2] are non-negative, and
    since no character is both a digit and a hyphen, [f1 + f2] is at
    most [f0]. *)
Theorem features_bounds (item : string) :
  Z.of_nat (String.length item) <= INT_MAX ->
  exists f0 f1 f2,
    SLBF.extract_features item = Ok (f0, f1, f2) /\
    f0 = Z.of_nat (String.length item) /\
    0 <= f1 /\ 0 <= f2 /\ f1 + f2 <= f0.
Proof.
  intros Hlen. rewrite (extract_features_fit item (short_key_fits item Hlen)).
  pose proof (feature_counts_bounds item) as (H1 & H2 & H12).
  do 3 eexists. split; [reflexivity|].
  rewrite to_int_small by (unfold is_int, INT_MIN, INT_MAX in *; lia).
  auto.
Qed.

(** X13.  The features of a concatenation are the sums of the features
    of its parts, as long as the whole is shorter than 2^31
    characters. *)
Theorem features_additive (a b : string) :
  Z.of_nat (String.length (a ++ b)) <= INT_MAX ->
  forall a0 a1 a2 b0 b1 b2,
    SLBF.extract_features a = Ok (a0, a1, a2) ->
    SLBF.extract_features b = Ok (b0, b1, b2) ->
    SLBF.extract_features (a ++ b) = Ok (a0 + b0, a1 + b1, a2 + b2).
Proof.
  intros Hlen a0 a1 a2 b0 b1 b2.
  rewrite (extract_features_fit _ (short_key_fits _ Hlen)).
  rewrite string_app_length in *.
  rewrite (extract_features_fit a) by (apply short_key_fits; lia).
  rewrite (extract_features_fit b) by (apply short_key_fits; lia).
  rewrite feature_counts_app. cbn [fst snd].
  intros Ha Hb. inversion Ha; inversion Hb; subst.
  rewrite !to_int_small by (unfold is_int, INT_MIN, INT_MAX in *; lia).
  rewrite Nat2Z.inj_add. reflexivity.
Qed.

(** X14.  The features of the benchmark's URLs depend on the number of
    decimal digits [d] of the index only: (27 + d, d, 3) for a malicious
    URL and (21 + d, d, 2) for a safe one ([f0] converted to [int]),
    unless [d] itself exceeds [INT_MAX] and the digit counter
    overflows, which no [int] index reaches.  Hence the classifier
    gives one answer for all malicious URLs whose indices have equally
    many digits. *)
Theorem url_features (i j : Z) :
  0 <= i -> 0 <= j ->
  let d := Z.of_nat (String.length (to_string i)) in
  SLBF.extract_features (Benchmark.malicious_url i) =
    (if d <=? INT_MAX then Ok (to_int (27 + d), d, 3)
     else Fault SignedOverflow) /\
  SLBF.extract_features (Benchmark.safe_url i) =
    (if d <=? INT_MAX then Ok (to_int (21 + d), d, 2)
     else Fault SignedOverflow) /\
  (String.length (to_string i) = String.length (to_string j) ->
   SLBF.predicts_member evaluate_model (Benchmark.malicious_url i) =
   SLBF.predicts_member evaluate_model (Benchmark.malicious_url j)) /\
  (i <= INT_MAX ->
   SLBF.extract_features (Benchmark.malicious_url i) = Ok (27 + d, d, 3) /\
   SLBF.extract_features (Benchmark.safe_url i) = Ok (21 + d, d, 2)).
Proof.
  intros Hi Hj d.
  assert (Hurl : forall (prefix : string) (n : Z), 0 <= n ->
            SLBF.extract_features (prefix ++ to_string n ++ ".com") =
            if (fst (SLBF.feature_counts prefix)
                  + Z.of_nat (String.length (to_string n)) <=? INT_MAX) &&
               (snd (SLBF.feature_counts prefix) <=? INT_MAX)
            then Ok (to_int (Z.of_nat (String.length prefix) + 4
                             + Z.of_nat (String.length (to_string n))),
                     fst (SLBF.feature_counts prefix)
                       + Z.of_nat (String.length (to_string n)),
                     snd (SLBF.feature_counts prefix))
            else Fault SignedOverflow).
  { intros prefix n Hn. rewrite extract_features_exact.
    rewrite !feature_counts_app, !string_app_length.
    rewrite (feature_counts_to_string n Hn).
    assert (Hc : SLBF.feature_counts ".com" = (0, 0)) by reflexivity.
    assert (Hl : String.length ".com" = 4%nat) by reflexivity.
    rewrite Hc, Hl. cbn [fst snd].
    set (p := String.length prefix). set (l := String.length (to_string n)).
    replace (Z.of_nat (p + (l + 4))) with (Z.of_nat p + 4 + Z.of_nat l) by lia.
    rewrite !Z.add_0_r. reflexivity. }
  assert (Hm : forall n, 0 <= n ->
            SLBF.extract_features (Benchmark.malicious_url n) =
            if Z.of_nat (String.length (to_string n)) <=? INT_MAX
            then Ok (to_int (27 + Z.of_nat (String.length (to_string n))),
                     Z.of_nat (String.length (to_string n)), 3)
            else Fault SignedOverflow).
  { intros n Hn. unfold Benchmark.malicious_url. rewrite (Hurl _ n Hn).
    change (SLBF.feature_counts "http://bad-hacker-site-") with (0, 3).
    change (String.length "http://bad-hacker-site-") with 23%nat.
    cbn [fst snd]. rewrite Z.add_0_l.
    change (3 <=? INT_MAX) with true. rewrite andb_true_r.
    replace (Z.of_nat 23 + 4 + Z.of_nat (String.length (to_string n)))
      with (27 + Z.of_nat (String.length (to_string n))) by lia.
    reflexivity. }
  assert (Hsafe : SLBF.extract_features (Benchmark.safe_url i) =
            if d <=? INT_MAX then Ok (to_int (21 + d), d, 2)
            else Fault SignedOverflow).
  { unfold Benchmark.safe_url. rewrite (Hurl _ i Hi).
    change (SLBF.feature_counts "http://safe-site-") with (0, 2).
    change (String.length "http://safe-site-") with 17%nat.
    cbn [fst snd]. rewrite Z.add_0_l.
    change (2 <=? INT_MAX) with true. rewrite andb_true_r. fold d.
    replace (Z.of_nat 17 + 4 + d) with (21 + d) by lia.
    reflexivity. }
  split; [apply Hm; exact Hi|]. split; [exact Hsafe|]. split.
  - intros Hd. unfold SLBF.predicts_member.
    rewrite (Hm i Hi), (Hm j Hj), Hd. reflexivity.
  - intros Hmax. pose proof (to_string_length i (conj Hi Hmax)) as Hlen.
    rewrite (Hm i Hi), Hsafe. fold d.
    assert (Hd : d <= 31) by (unfold d; lia).
    destruct (Z.leb_spec d INT_MAX); [|unfold INT_MAX in *; lia].
    rewrite !to_int_small by (unfold is_int, INT_MIN, INT_MAX; lia).
    split; reflexivity.
Qed.

End FeatureProperties.

(** ** The sandwich: composition of the layers *)

Section SandwichExtras.

Variable hasher : string -> Z.


(** With no hash function, [insert] is the identity and
    [possibly_contains] is constantly [true], in every state. *)
Lemma no_hashes (f : SBF.t) (key : string) :
  SBF.num_hashes f <= 0 ->
  SBF.insert hasher f key = Ok f /\
  SBF.possibly_contains hasher f key = Ok true.
Proof.
  intros Hk. unfold SBF.insert, SBF.possibly_contains.
  replace (Z.to_nat (SBF.num_hashes f)) with O by lia. split; reflexivity.
Qed.

(** A population is the two series of insertions, one per layer. *)
Lemma populate_split (ops : list SLBF.insertion) (f : SLBF.t) :
  SLBF.wf f ->
  exists l1 l3,
    SBF.insert_all hasher (SLBF.L1_filter f) (SLBF.L1_keys ops) = Ok l1 /\
    SBF.insert_all hasher (SLBF.L3_filter f) (SLBF.L3_keys ops) = Ok l3 /\
    SLBF.populate hasher f ops = Ok (SLBF.mk l1 l3).
Proof.
  revert f. induction ops as [|[x|x] rest IH]; intros f Hwf.
  - destruct f as [l1 l3]. exists l1, l3. auto.
  - destruct (insert_L1_total hasher f x Hwf) as (f' & Hi & Hwf').
    destruct (IH f' Hwf') as (l1 & l3 & H1 & H3 & Hp).
    exists l1, l3. cbn [SLBF.L1_keys SLBF.L3_keys SLBF.populate
                        SLBF.apply_insertion SBF.insert_all].
    rewrite Hi. cbn [bind]. unfold SLBF.insert_L1 in Hi.
    apply bind_Ok in Hi as (l1' & Hi & Hf'). inversion Hf'; subst f'.
    rewrite Hi. cbn [bind]. auto.
  - destruct (insert_L3_total hasher f x Hwf) as (f' & Hi & Hwf').
    destruct (IH f' Hwf') as (l1 & l3 & H1 & H3 & Hp).
    exists l1, l3. cbn [SLBF.L1_keys SLBF.L3_keys SLBF.populate
                        SLBF.apply_insertion SBF.insert_all].
    rewrite Hi. cbn [bind]. unfold SLBF.insert_L3 in Hi.
    apply bind_Ok in Hi as (l3' & Hi & Hf'). inversion Hf'; subst f'.
    rewrite Hi. cbn [bind]. auto.
Qed.

Lemma In_L1_keys (ops : list SLBF.insertion) (x : string) :
  In x (SLBF.L1_keys ops) <-> In (SLBF.IntoL1 x) ops.
Proof.
  induction ops as [|[y|y] rest IH]; cbn; [tauto| |].
  - rewrite IH. split; intros [H|H]; auto; [left; congruence|].
    inversion H. auto.
  - rewrite IH. split; [auto|]. intros [H|H]; [discriminate | exact H].
Qed.

Lemma In_L3_keys (ops : list SLBF.insertion) (x : string) :
  In x (SLBF.L3_keys ops) <-> In (SLBF.IntoL3 x) ops.
Proof.
  induction ops as [|[y|y] rest IH]; cbn; [tauto| |].
  - rewrite IH. split; [auto|]. intros [H|H]; [discriminate | exact H].
  - rewrite IH. split; intros [H|H]; auto; [left; congruence|].
    inversion H. auto.
Qed.

Section WithClassifier.

Variable evaluate_model : Z -> Z -> Z -> bool.

(** What a [true] from [query] rests on. *)
Lemma query_true (f : SLBF.t) (key : string) :
  SLBF.query hasher evaluate_model f key = Ok true <->
  SBF.possibly_contains hasher (SLBF.L1_filter f) key = Ok true /\
  exists prediction,
    SLBF.predicts_member evaluate_model key = Ok prediction /\
    (prediction = true \/
     SBF.possibly_contains hasher (SLBF.L3_filter f) key = Ok true).
Proof.
  unfold SLBF.query, SLBF.predicts_member.
  destruct (SBF.possibly_contains hasher (SLBF.L1_filter f) key) as [[|]|e];
    cbn [bind negb].
  - destruct (SLBF.extract_features key) as [[[x0 x1] x2]|e]; cbn [bind].
    + destruct (evaluate_model x0 x1 x2).
      * split; [eauto|reflexivity].
      * split; [eauto|]. intros [_ (p & Hp & [->|H])]; [discriminate | exact H].
    + split; [discriminate|]. intros [_ (p & Hp & _)]. discriminate.
  - split; [discriminate|]. intros [H _]. discriminate.
  - split; [discriminate|]. intros [H _]. discriminate.
Qed.

(** X11.  The hash counts are not checked: a sandwich constructed with
    non-positive hash counts in both layers, of any sizes that can be
    allocated (zero included), is left unchanged by every population
    and answers [true] to [query] for every key with fewer than 2^31
    digits and fewer than 2^31 hyphens, whatever the classifier
    predicts. *)
Theorem no_hashes_accepts_everything
    (l1 k1 l3 k3 : Z) (ops : list SLBF.insertion) (key : string) :
  0 <= l1 <= INT_MAX -> 0 <= l3 <= INT_MAX -> k1 <= 0 -> k3 <= 0 ->
  SLBF.features_fit key ->
  exists f,
    SLBF.new l1 k1 l3 k3 = Ok f /\
    SLBF.populate hasher f ops = Ok f /\
    SLBF.query hasher evaluate_model f key = Ok true.
Proof.
  intros H1 H3 Hk1 Hk3 Hfit.
  eexists. split; [apply new_sandwich_fresh; assumption|].
  set (f := SLBF.mk _ _). split.
  - induction ops as [|[x|x] rest IH]; [reflexivity| |];
      cbn [SLBF.populate SLBF.apply_insertion];
      unfold SLBF.insert_L1, SLBF.insert_L3.
    + rewrite (proj1 (no_hashes (SLBF.L1_filter f) x Hk1)). exact IH.
    + rewrite (proj1 (no_hashes (SLBF.L3_filter f) x Hk3)). exact IH.
  - apply query_true. split; [apply no_hashes; exact Hk1|].
    eexists. split; [apply predicts_member_fit; exact Hfit|].
    right. apply no_hashes. exact Hk3.
Qed.

(** X15.  A positive answer of the sandwich is never withdrawn: once
    [query(key)] has returned [true], it returns [true] after any
    further calls of [insert_L1] and [insert_L3]. *)
Theorem query_positives_persist
    (f g : SLBF.t) (ops : list SLBF.insertion) (key : string) :
  SLBF.query hasher evaluate_model f key = Ok true ->
  SLBF.populate hasher f ops = Ok g ->
  SLBF.query hasher evaluate_model g key = Ok true.
Proof.
  intros Hq Hp. apply query_true in Hq as (H1 & p & Hpred & H3).
  apply query_true.
  apply populate_Ok in Hp as ((He1 & He3) & _).
  split.
  - apply contains_covered. apply (covers_extends hasher _ _ key) with (2 := He1).
    apply contains_true_covers. exact H1.
  - exists p. split; [exact Hpred|].
    destruct H3 as [H3|H3]; [left; exact H3 | right].
    apply contains_covered. apply (covers_extends hasher _ _ key) with (2 := He3).
    apply contains_true_covers. exact H3.
Qed.

(** X16.  The state after a population depends only on which keys went
    into which layer: two sequences of insertion calls with the same
    calls, in any order and with any repetitions, leave a sandwich with
    layers of positive size in the same state. *)
Theorem populate_order_irrelevant (f : SLBF.t) (ops ops' : list SLBF.insertion) :
  SLBF.wf f ->
  (forall op, In op ops <-> In op ops') ->
  exists g,
    SLBF.populate hasher f ops = Ok g /\ SLBF.populate hasher f ops' = Ok g.
Proof.
  intros Hwf Hsame.
  destruct (populate_split ops f Hwf) as (l1 & l3 & H1 & H3 & Hp).
  destruct (populate_split ops' f Hwf) as (l1' & l3' & H1' & H3' & Hp').
  exists (SLBF.mk l1 l3). split; [exact Hp|]. rewrite Hp'.
  destruct Hwf as [Hwf1 Hwf3].
  rewrite (insert_all_same_keys hasher _ (SLBF.L1_keys ops) (SLBF.L1_keys ops')
             Hwf1) in H1
    by (intros x; rewrite !In_L1_keys; apply Hsame).
  rewrite (insert_all_same_keys hasher _ (SLBF.L3_keys ops) (SLBF.L3_keys ops')
             Hwf3) in H3
    by (intros x; rewrite !In_L3_keys; apply Hsame).
  congruence.
Qed.


End WithClassifier.
End SandwichExtras.

(** ** The benchmark: test data, population and counting *)

Lemma string_app_inv_tail (a b c : string) :
  (a ++ c = b ++ c)%string -> a = b.
Proof.
  revert b. induction a as [|x a IH]; intros [|y b] H.
  - reflexivity.
  - apply (f_equal String.length) in H. cbn in H.
    rewrite string_app_length in H. lia.
  - apply (f_equal String.length) in H. cbn in H.
    rewrite string_app_length in H. lia.
  - cbn in H. inversion H. f_equal. auto.
Qed.

Lemma generate_length (url : Z -> string) (n : nat) (i : Z) :
  length (Benchmark.generate url n i) = n.
Proof.
  revert i. induction n as [|n IH]; intros i; [reflexivity|].
  cbn. now rewrite IH.
Qed.

Lemma generate_In (url : Z -> string) (n : nat) (i : Z) (x : string) :
  In x (Benchmark.generate url n i) <->
  exists j, i <= j < i + Z.of_nat n /\ x = url j.
Proof.
  revert i. induction n as [|n IH]; intros i.
  - cbn. split; [tauto|]. intros (j & Hj & _). lia.
  - cbn [Benchmark.generate In]. rewrite IH. split.
    + intros [<-|(j & Hj & ->)]; [exists i | exists j]; split; auto; lia.
    + intros (j & Hj & ->). destruct (Z.eq_dec j i) as [->|Hne]; [auto|].
      right. exists j. split; [lia | reflexivity].
Qed.

Lemma generate_NoDup (url : Z -> string) (n : nat) (i : Z) :
  (forall a b, url a = url b -> a = b) ->
  List.NoDup (Benchmark.generate url n i).
Proof.
  intros Hinj. revert i. induction n as [|n IH]; intros i; cbn.
  - constructor.
  - constructor; [|apply IH]. intros Hin.
    apply generate_In in Hin as (j & Hj & Heq). apply Hinj in Heq. lia.
Qed.

Lemma malicious_url_inj (a b : Z) :
  Benchmark.malicious_url a = Benchmark.malicious_url b -> a = b.
Proof.
  unfold Benchmark.malicious_url. intros H.
  apply string_app_inv_head, string_app_inv_tail in H.
  exact (to_string_inj a b H).
Qed.

Lemma safe_url_inj (a b : Z) :
  Benchmark.safe_url a = Benchmark.safe_url b -> a = b.
Proof.
  unfold Benchmark.safe_url. intros H.
  apply string_app_inv_head, string_app_inv_tail in H.
  exact (to_string_inj a b H).
Qed.

Lemma malicious_not_safe (a b : Z) :
  Benchmark.malicious_url a <> Benchmark.safe_url b.
Proof.
  unfold Benchmark.malicious_url, Benchmark.safe_url. cbn [append].
  intros H. inversion H.
Qed.

Lemma int_add_one (z : Z) : 0 <= z < INT_MAX -> int_add z 1 = Ok (z + 1).
Proof.
  unfold int_add, INT_MIN, INT_MAX. intros H.
  destruct (Z.leb_spec (- 2 ^ 31) (z + 1)); [|lia].
  destruct (Z.leb_spec (z + 1) (2 ^ 31 - 1)); [reflexivity | lia].
Qed.

Section BenchmarkExtras.

Variable hasher : string -> Z.
Variable rand : nat -> Z.

Lemma populate_step_Ok (st st' : Benchmark.state) (url : string) :
  Benchmark.populate_step hasher rand st url = Ok st' ->
  SBF.extends (Benchmark.standard_bf st) (Benchmark.standard_bf st') /\
  SBF.extends (SLBF.L1_filter (Benchmark.learned_bf st))
              (SLBF.L1_filter (Benchmark.learned_bf st')) /\
  SBF.extends (SLBF.L3_filter (Benchmark.learned_bf st))
              (SLBF.L3_filter (Benchmark.learned_bf st')) /\
  SBF.covers hasher (Benchmark.standard_bf st') url /\
  SBF.covers hasher (SLBF.L1_filter (Benchmark.learned_bf st')) url /\
  Benchmark.rand_calls st' = S (Benchmark.rand_calls st).
Proof.
  unfold Benchmark.populate_step. intros H.
  apply bind_Ok in H as (s & Hs & H). apply bind_Ok in H as (l & Hl & H).
  apply bind_Ok in H as (l' & Hl' & H). inversion H; subst st'; clear H.
  cbn [Benchmark.standard_bf Benchmark.learned_bf Benchmark.rand_calls].
  apply insert_Ok in Hs as (Hes & _ & Hcs).
  apply insert_L1_Ok in Hl as (He1 & Hc1 & Heq3).
  destruct (Benchmark.falls_to_L3 (rand (Benchmark.rand_calls st))).
  - apply insert_L3_Ok in Hl' as (He3 & _ & Heq1). rewrite Heq1.
    rewrite <- Heq3. auto 10.
  - inversion Hl'; subst l'. rewrite Heq3. auto 10 using extends_refl.
Qed.

Lemma populate_bench_Ok (urls : list string) (st st' : Benchmark.state) :
  Benchmark.populate hasher rand st urls = Ok st' ->
  SBF.extends (Benchmark.standard_bf st) (Benchmark.standard_bf st') /\
  SBF.extends (SLBF.L1_filter (Benchmark.learned_bf st))
              (SLBF.L1_filter (Benchmark.learned_bf st')) /\
  SBF.extends (SLBF.L3_filter (Benchmark.learned_bf st))
              (SLBF.L3_filter (Benchmark.learned_bf st')) /\
  (forall url, In url urls ->
     SBF.covers hasher (Benchmark.standard_bf st') url /\
     SBF.covers hasher (SLBF.L1_filter (Benchmark.learned_bf st')) url) /\
  Benchmark.rand_calls st' = (Benchmark.rand_calls st + length urls)%nat.
Proof.
  revert st. induction urls as [|x rest IH]; intros st H.
  - inversion H; subst st'. do 3 (split; [apply extends_refl|]).
    split; [intros url []|]. cbn. lia.
  - cbn [Benchmark.populate] in H. apply bind_Ok in H as (st1 & Hstep & H).
    apply populate_step_Ok in Hstep as (Hs & H1 & H3 & Hcs & Hc1 & Hr).
    apply IH in H as (Hs' & H1' & H3' & Hc & Hr').
    split; [eapply extends_trans; eassumption|].
    split; [eapply extends_trans; eassumption|].
    split; [eapply extends_trans; eassumption|].
    split; [|cbn [length]; lia].
    intros url [<-|Hin]; [|auto]. split.
    + exact (covers_extends hasher _ _ x Hcs Hs').
    + exact (covers_extends hasher _ _ x Hc1 H1').
Qed.

Lemma populate_bench_total (urls : list string) (st : Benchmark.state) :
  SBF.wf (Benchmark.standard_bf st) -> SLBF.wf (Benchmark.learned_bf st) ->
  exists st',
    Benchmark.populate hasher rand st urls = Ok st' /\
    SBF.wf (Benchmark.standard_bf st') /\ SLBF.wf (Benchmark.learned_bf st').
Proof.
  revert st. induction urls as [|x rest IH]; intros st Hs Hl.
  - exists st. auto.
  - cbn [Benchmark.populate].
    assert (exists st1, Benchmark.populate_step hasher rand st x = Ok st1 /\
                        SBF.wf (Benchmark.standard_bf st1) /\
                        SLBF.wf (Benchmark.learned_bf st1))
      as (st1 & Hstep & Hs1 & Hl1).
    { unfold Benchmark.populate_step.
      destruct (insert_total hasher _ x Hs) as (s & Hi & Hwfs).
      destruct (insert_L1_total hasher _ x Hl) as (l & Hi1 & Hwfl).
      rewrite Hi, Hi1. cbn [bind].
      destruct (Benchmark.falls_to_L3 (rand (Benchmark.rand_calls st))).
      - destruct (insert_L3_total hasher l x Hwfl) as (l' & Hi3 & Hwfl').
        rewrite Hi3. cbn [bind]. eauto.
      - cbn [bind]. eauto. }
    rewrite Hstep. cbn [bind]. apply IH; assumption.
Qed.

Lemma count_standard_bounds (f : SBF.t) (urls : list string) (fps : Z) :
  SBF.wf f -> 0 <= fps -> fps + Z.of_nat (length urls) <= INT_MAX ->
  exists n,
    Benchmark.count_standard_fps hasher f urls fps = Ok n /\
    fps <= n <= fps + Z.of_nat (length urls).
Proof.
  intros Hwf. revert fps. induction urls as [|x rest IH]; intros fps H0 Hmax.
  - exists fps. cbn. split; [reflexivity | lia].
  - cbn [Benchmark.count_standard_fps length] in *.
    destruct (contains_total hasher f x Hwf) as (b & Hb). rewrite Hb. cbn [bind].
    destruct b.
    + rewrite int_add_one by lia. cbn [bind].
      destruct (IH (fps + 1)) as (n & Hn & Hr); [lia | lia |].
      exists n. split; [exact Hn | lia].
    + cbn [bind]. destruct (IH fps) as (n & Hn & Hr); [lia | lia |].
      exists n. split; [exact Hn | lia].
Qed.

End BenchmarkExtras.

Section BenchmarkProperties.

Variable hasher : string -> Z.
Variable rand : nat -> Z.
Variable evaluate_model : Z -> Z -> Z -> bool.

Lemma query_total (f : SLBF.t) (key : string) :
  SLBF.wf f -> SLBF.features_fit key ->
  exists in_L1 q,
    SBF.possibly_contains hasher (SLBF.L1_filter f) key = Ok in_L1 /\
    SLBF.query hasher evaluate_model f key = Ok q /\
    (q = true -> in_L1 = true).
Proof.
  intros [Hwf1 Hwf3] Hfit.
  destruct (contains_total hasher _ key Hwf1) as (b1 & Hb1).
  destruct (contains_total hasher _ key Hwf3) as (b3 & Hb3).
  unfold SLBF.query. rewrite Hb1, Hb3, (extract_features_fit key Hfit).
  cbn [bind].
  destruct b1; cbn [negb]; [|eauto].
  destruct (evaluate_model _ _ _); eauto.
Qed.

Lemma count_learned_bounds (f : SLBF.t) (urls : list string) (a b : Z) :
  SLBF.wf f -> (forall url, In url urls -> SLBF.features_fit url) ->
  0 <= a -> 0 <= b ->
  a + Z.of_nat (length urls) <= INT_MAX ->
  b + Z.of_nat (length urls) <= INT_MAX ->
  exists n m,
    Benchmark.count_learned_fps hasher evaluate_model f urls a = Ok n /\
    Benchmark.count_standard_fps hasher (SLBF.L1_filter f) urls b = Ok m /\
    a <= n /\ n - a <= m - b /\ m <= b + Z.of_nat (length urls).
Proof.
  intros Hwf. revert a b.
  induction urls as [|x rest IH]; intros a b Hfit Ha Hb Hamax Hbmax.
  - exists a, b. cbn. repeat split; lia.
  - cbn [Benchmark.count_learned_fps Benchmark.count_standard_fps length] in *.
    assert (Hrest : forall url, In url rest -> SLBF.features_fit url)
      by (intros url Hin; apply Hfit; right; exact Hin).
    destruct (query_total f x Hwf (Hfit x (or_introl eq_refl)))
      as (b1 & q & Hb1 & Hq & Himp).
    rewrite Hb1, Hq. cbn [bind].
    destruct q, b1; try (specialize (Himp eq_refl); discriminate).
    + rewrite !int_add_one by lia. cbn [bind].
      destruct (IH (a + 1) (b + 1)) as (n & m & Hn & Hm & Hr); try lia;
        [exact Hrest|].
      exists n, m. repeat split; try assumption; lia.
    + rewrite int_add_one by lia. cbn [bind].
      destruct (IH a (b + 1)) as (n & m & Hn & Hm & Hr); try lia;
        [exact Hrest|].
      exists n, m. repeat split; try assumption; lia.
    + cbn [bind].
      destruct (IH a b) as (n & m & Hn & Hm & Hr); try lia; [exact Hrest|].
      exists n, m. repeat split; try assumption; lia.
Qed.

(** X18.  The population loop, from any state with filters of positive
    size and for any list of URLs and any draws of [rand()]: it
    completes, consumes one draw per URL, and afterwards the standard
    filter and layer L1 of the learned filter report every URL of the
    list, and the learned filter answers [true] for every URL of the
    list that the classifier predicts to be a member. *)
Theorem populate_loop_effect (st : Benchmark.state) (urls : list string) :
  SBF.wf (Benchmark.standard_bf st) -> SLBF.wf (Benchmark.learned_bf st) ->
  exists st',
    Benchmark.populate hasher rand st urls = Ok st' /\
    Benchmark.rand_calls st' = (Benchmark.rand_calls st + length urls)%nat /\
    forall url, In url urls ->
      SBF.possibly_contains hasher (Benchmark.standard_bf st') url = Ok true /\
      SBF.possibly_contains hasher
        (SLBF.L1_filter (Benchmark.learned_bf st')) url = Ok true /\
      (SLBF.predicts_member evaluate_model url = Ok true ->
       SLBF.query hasher evaluate_model (Benchmark.learned_bf st') url
         = Ok true).
Proof.
  intros Hs Hl.
  destruct (populate_bench_total hasher rand urls st Hs Hl) as (st' & Hp & _).
  exists st'. split; [exact Hp|].
  apply populate_bench_Ok in Hp as (_ & _ & _ & Hc & Hr).
  split; [exact Hr|]. intros url Hin. destruct (Hc url Hin) as (Hcs & Hc1).
  split; [apply contains_covered; exact Hcs|].
  split; [apply contains_covered; exact Hc1|].
  intros Hm. apply query_true. split; [apply contains_covered; exact Hc1|].
  exists true. split; [exact Hm | left; reflexivity].
Qed.

(** X19.  The test data: [main] generates 5000 malicious and 5000 safe
    URLs, the URLs of each list are pairwise different, and no URL is
    in both lists, so every safe URL the filters report is a false
    positive. *)
Theorem test_data_disjoint :
  length Benchmark.malicious_urls = 5000%nat /\
  length Benchmark.safe_urls = 5000%nat /\
  List.NoDup Benchmark.malicious_urls /\
  List.NoDup Benchmark.safe_urls /\
  forall url, In url Benchmark.malicious_urls -> ~ In url Benchmark.safe_urls.
Proof.
  unfold Benchmark.malicious_urls, Benchmark.safe_urls.
  split; [apply generate_length|]. split; [apply generate_length|].
  split; [apply generate_NoDup; exact malicious_url_inj|].
  split; [apply generate_NoDup; exact safe_url_inj|].
  intros url Hm Hs.
  apply generate_In in Hm as (a & _ & ->).
  apply generate_In in Hs as (b & _ & Heq).
  exact (malicious_not_safe a b Heq).
Qed.

(** X20.  The two counting loops, on a learned filter with layers of
    positive size and a list shorter than 2^31 of keys that each have
    fewer than 2^31 digits and fewer than 2^31 hyphens: both complete,
    and the learned filter counts at most as many positives as its
    layer L1 alone would, which is at most the length of the list. *)
Theorem learned_count_bounded (f : SLBF.t) (urls : list string) :
  SLBF.wf f -> Z.of_nat (length urls) <= INT_MAX ->
  (forall url, In url urls -> SLBF.features_fit url) ->
  exists n m,
    Benchmark.count_learned_fps hasher evaluate_model f urls 0 = Ok n /\
    Benchmark.count_standard_fps hasher (SLBF.L1_filter f) urls 0 = Ok m /\
    0 <= n <= m /\ m <= Z.of_nat (length urls).
Proof.
  intros Hwf Hlen Hfit.
  destruct (count_learned_bounds f urls 0 0 Hwf Hfit) as (n & m & Hn & Hm & Hr);
    try lia.
  exists n, m. repeat split; try assumption; lia.
Qed.

(** X21.  [main] runs to the end whatever the hash function, the draws
    of [rand()] and the classifier are: no remainder by zero, no index
    outside a bit array and no [int] overflow occurs; it reports 3000
    and 1500 bits, and two counts of false positives between 0 and
    5000. *)
Theorem main_completes :
  exists r,
    Benchmark.main hasher rand evaluate_model = Ok r /\
    Benchmark.standard_bits r = 3000 /\
    Benchmark.learned_bits r = 1500 /\
    0 <= Benchmark.standard_fps r <= 5000 /\
    0 <= Benchmark.learned_fps r <= 5000.
Proof.
  unfold Benchmark.main. rewrite setup_Ok. cbn [bind].
  set (st0 := Benchmark.mk _ _ _).
  assert (Hs : SBF.wf (Benchmark.standard_bf st0))
    by (unfold SBF.wf, INT_MAX; cbn; lia).
  assert (Hl : SLBF.wf (Benchmark.learned_bf st0))
    by (unfold SLBF.wf, SBF.wf, INT_MAX; cbn; lia).
  destruct (populate_bench_total hasher rand Benchmark.malicious_urls st0 Hs Hl)
    as (st & Hp & Hs' & Hl').
  rewrite Hp. cbn [bind].
  apply populate_bench_Ok in Hp as ((Hsz & _) & (Hsz1 & _) & (Hsz3 & _) & _).
  assert (Hlen : length Benchmark.safe_urls = 5000%nat)
    by apply generate_length.
  destruct (count_standard_bounds hasher (Benchmark.standard_bf st)
              Benchmark.safe_urls 0 Hs') as (sfps & Hsf & Hsr);
    [lia | rewrite Hlen; unfold INT_MAX; lia |].
  rewrite Hsf. cbn [bind].
  assert (Hfit : forall url, In url Benchmark.safe_urls ->
                             SLBF.features_fit url).
  { intros url Hin. apply generate_In in Hin as (j & Hj & ->).
    apply short_key_fits. unfold Benchmark.safe_url.
    rewrite !string_app_length.
    pose proof (to_string_length j) as Hd. unfold INT_MAX in *.
    change (String.length "http://safe-site-") with 17%nat.
    change (String.length ".com") with 4%nat. lia. }
  destruct (count_learned_bounds (Benchmark.learned_bf st)
              Benchmark.safe_urls 0 0 Hl' Hfit) as (lfps & m & Hlf & _ & Hlr);
    [lia | lia | rewrite Hlen; unfold INT_MAX; lia
     | rewrite Hlen; unfold INT_MAX; lia |].
  rewrite Hlf. cbn [bind].
  unfold SLBF.get_memory_bits, SBF.get_memory_bits.
  rewrite Hsz, Hsz1, Hsz3. cbn [Benchmark.standard_bf Benchmark.learned_bf
    SLBF.L1_filter SLBF.L3_filter SBF.size st0].
  change (int_add 1000 500) with (Ok (A := Z) 1500). cbn [bind].
  eexists. split; [reflexivity|].
  cbn [Benchmark.standard_bits Benchmark.learned_bits
       Benchmark.standard_fps Benchmark.learned_fps].
  rewrite Hlen in *. lia.
Qed.

End BenchmarkProperties.

(** ** The properties on sample inputs *)

Lemma hash_in_range_witness :
  exists idx,
    SBF.hash sample_hasher sample_filter "a" 5 = Ok idx /\
    0 <= idx < Z.of_nat (length (SBF.bit_array sample_filter)) /\
    SBF.hash sample_hasher sample_full_filter "a" 5 = Ok idx.
Proof.
  apply (hash_in_range sample_hasher sample_filter sample_full_filter "a" 5).
  - unfold SBF.wf, INT_MAX. cbn. lia.
  - reflexivity.
Defined.

Lemma hash_seed_concatenation_witness :
  SBF.hash sample_hasher sample_filter ("x" ++ "1") 0 =
  SBF.hash sample_hasher sample_filter "x" 10.
Proof.
  apply (hash_seed_concatenation sample_hasher sample_filter "x" "1" 0 10).
  reflexivity.
Defined.

Lemma hash_inputs_distinct_witness :
  ("a" ++ to_string 0)%string <> ("a" ++ to_string 1)%string.
Proof. apply (hash_inputs_distinct "a" 0 1). lia. Defined.

Lemma insert_sets_exactly_hits_witness :
  8 = SBF.size sample_filter /\ 2 = SBF.num_hashes sample_filter /\
  length [false; false; false; false; false; false; true; true] =
  length (SBF.bit_array sample_filter) /\
  forall m : nat,
    [false; false; false; false; false; false; true; true] !! m = Some true <->
    SBF.bit_array sample_filter !! m = Some true \/
    SBF.hits sample_hasher sample_filter "a" m.
Proof.
  apply (insert_sets_exactly_hits sample_hasher sample_filter
           (SBF.mk [false; false; false; false; false; false; true; true] 8 2)
           "a").
  reflexivity.
Defined.

Lemma contains_iff_slots_set_witness :
  exists b,
    SBF.possibly_contains sample_hasher sample_filter "a" = Ok b /\
    (b = true <->
     forall n : nat, SBF.hits sample_hasher sample_filter "a" n ->
                     SBF.bit_array sample_filter !! n = Some true).
Proof.
  apply (contains_iff_slots_set sample_hasher sample_filter "a").
  unfold SBF.wf, INT_MAX. cbn. lia.
Defined.

Lemma contains_after_inserts_witness :
  exists g b,
    SBF.insert_all sample_hasher sample_filter ["a"; "b"]%string = Ok g /\
    SBF.possibly_contains sample_hasher g "c" = Ok b /\
    (b = true <->
     forall n : nat, SBF.hits sample_hasher sample_filter "c" n ->
       SBF.bit_array sample_filter !! n = Some true \/
       exists item, In item ["a"; "b"]%string /\
                    SBF.hits sample_hasher sample_filter item n).
Proof.
  apply (contains_after_inserts sample_hasher sample_filter
           ["a"; "b"]%string "c").
  unfold SBF.wf, INT_MAX. cbn. lia.
Defined.

Lemma positives_persist_witness :
  SBF.possibly_contains sample_hasher
    (SBF.mk [true; false; false; false; false; false; true; true] 8 2) "a"
  = Ok true.
Proof.
  apply (positives_persist sample_hasher
           (SBF.mk [false; false; false; false; false; false; true; true] 8 2)
           (SBF.mk [true; false; false; false; false; false; true; true] 8 2)
           "a" ["b"]%string); reflexivity.
Defined.

Lemma insert_order_irrelevant_witness :
  exists g,
    SBF.insert_all sample_hasher sample_filter ["a"; "b"; "a"]%string = Ok g /\
    SBF.insert_all sample_hasher sample_filter ["b"; "a"]%string = Ok g.
Proof.
  apply (insert_order_irrelevant sample_hasher sample_filter).
  - unfold SBF.wf, INT_MAX. cbn. lia.
  - intros x. cbn. tauto.
Defined.

Lemma load_bound_witness :
  exists f g,
    SBF.new 3000 3 = Ok f /\
    SBF.insert_all sample_hasher f ["a"; "b"]%string = Ok g /\
    (popcount (SBF.bit_array g) <= 2 * 3)%nat /\
    (popcount (SBF.bit_array g) <= 3000)%nat.
Proof.
  apply (load_bound sample_hasher 3000 3 ["a"; "b"]%string).
  unfold INT_MAX. lia.
Defined.

Lemma saturated_filter_witness :
  SBF.possibly_contains sample_hasher sample_full_filter "never inserted"
    = Ok true /\
  SBF.insert sample_hasher sample_full_filter "never inserted"
    = Ok sample_full_filter.
Proof.
  apply (saturated_filter sample_hasher sample_full_filter "never inserted").
  - unfold SBF.wf, INT_MAX. cbn. lia.
  - intros n Hn. cbn in Hn. apply lookup_replicate_2. exact Hn.
Defined.

Lemma features_bounds_witness :
  exists f0 f1 f2,
    SLBF.extract_features "ab-1" = Ok (f0, f1, f2) /\
    f0 = Z.of_nat (String.length "ab-1") /\
    0 <= f1 /\ 0 <= f2 /\ f1 + f2 <= f0.
Proof.
  apply (features_bounds "ab-1"). unfold INT_MAX. cbn. lia.
Defined.

Lemma features_additive_witness :
  SLBF.extract_features ("ab-1" ++ "2-") = Ok (4 + 2, 1 + 1, 1 + 1).
Proof.
  apply (features_additive "ab-1" "2-").
  - unfold INT_MAX. cbn. lia.
  - reflexivity.
  - reflexivity.
Defined.

Lemma url_features_witness :
  SLBF.extract_features (Benchmark.malicious_url 1000) = Ok (31, 4, 3) /\
  SLBF.extract_features (Benchmark.safe_url 1000) = Ok (25, 4, 2) /\
  SLBF.predicts_member sample_model (Benchmark.malicious_url 1000) =
  SLBF.predicts_member sample_model (Benchmark.malicious_url 4999).
Proof.
  destruct (url_features sample_model 1000 4999) as (_ & _ & Hp & Hint);
    [lia | lia |].
  destruct Hint as (Hm & Hs); [unfold INT_MAX; lia|].
  split; [exact Hm|]. split; [exact Hs|]. apply Hp. reflexivity.
Defined.

Lemma no_hashes_accepts_everything_witness :
  exists f,
    SLBF.new 8 0 0 (-1) = Ok f /\
    SLBF.populate sample_hasher f [SLBF.IntoL1 "a"; SLBF.IntoL3 "b"]%string
      = Ok f /\
    SLBF.query sample_hasher (fun _ _ _ => false) f "c" = Ok true.
Proof.
  apply (no_hashes_accepts_everything sample_hasher (fun _ _ _ => false)
           8 0 0 (-1)); try (unfold INT_MAX; lia).
  split; vm_compute; discriminate.
Defined.

Lemma query_positives_persist_witness :
  exists f g,
    SLBF.populate sample_hasher sample_sandwich [SLBF.IntoL1 "a-b-c-d"]%string
      = Ok f /\
    SLBF.populate sample_hasher f [SLBF.IntoL1 "x"]%string = Ok g /\
    SLBF.query sample_hasher sample_model g "a-b-c-d" = Ok true.
Proof.
  eexists. eexists. split; [reflexivity|].
  match goal with
  | |- SLBF.populate _ ?f _ = _ /\ _ =>
      split;
      [reflexivity
      |apply (query_positives_persist sample_hasher sample_model f _
                [SLBF.IntoL1 "x"]%string "a-b-c-d"); reflexivity]
  end.
Defined.

Lemma populate_order_irrelevant_witness :
  exists g,
    SLBF.populate sample_hasher sample_sandwich
      [SLBF.IntoL1 "a"; SLBF.IntoL3 "b"; SLBF.IntoL1 "a"]%string = Ok g /\
    SLBF.populate sample_hasher sample_sandwich
      [SLBF.IntoL3 "b"; SLBF.IntoL1 "a"]%string = Ok g.
Proof.
  apply (populate_order_irrelevant sample_hasher sample_sandwich).
  - unfold SLBF.wf, SBF.wf, INT_MAX. cbn. lia.
  - intros op. cbn. tauto.
Defined.


Lemma populate_loop_effect_witness :
  exists st',
    Benchmark.populate sample_hasher sample_rand sample_state
      ["a-b-c-d"; "x"]%string = Ok st' /\
    Benchmark.rand_calls st' = 2%nat /\
    SBF.possibly_contains sample_hasher (Benchmark.standard_bf st') "x"
      = Ok true /\
    SLBF.query sample_hasher sample_model (Benchmark.learned_bf st') "a-b-c-d"
      = Ok true.
Proof.
  destruct (populate_loop_effect sample_hasher sample_rand sample_model
              sample_state ["a-b-c-d"; "x"]%string) as (st' & Hp & Hr & Hall).
  - unfold SBF.wf, INT_MAX. cbn. lia.
  - unfold SLBF.wf, SBF.wf, INT_MAX. cbn. lia.
  - exists st'. split; [exact Hp|]. split; [exact Hr|]. split.
    + apply (Hall "x"%string). right. left. reflexivity.
    + apply (Hall "a-b-c-d"%string); [left|]; reflexivity.
Defined.

Lemma learned_count_bounded_witness :
  exists n m,
    Benchmark.count_learned_fps sample_hasher sample_model sample_populated
      ["x"; "a-b-c-d"; "q"; "b"]%string 0 = Ok n /\
    Benchmark.count_standard_fps sample_hasher
      (SLBF.L1_filter sample_populated) ["x"; "a-b-c-d"; "q"; "b"]%string 0
      = Ok m /\
    0 <= n <= m /\ m <= 4 /\ n = 2 /\ m = 3.
Proof.
  destruct (learned_count_bounded sample_hasher sample_model sample_populated
              ["x"; "a-b-c-d"; "q"; "b"]%string)
    as (n & m & Hn & Hm & Hnm & Hlen).
  - unfold SLBF.wf, SBF.wf. vm_compute.
    repeat split; (reflexivity || discriminate).
  - unfold INT_MAX. cbn. lia.
  - intros url Hin. apply short_key_fits. unfold INT_MAX.
    destruct Hin as [<-|[<-|[<-|[<-|[]]]]]; cbn; lia.
  - exists n, m. split; [exact Hn|]. split; [exact Hm|].
    split; [exact Hnm|]. split; [exact Hlen|].
    vm_compute in Hn. vm_compute in Hm. split; congruence.
Defined.
